(** * Event correlation tool of cfme/utils/events.py

    A shallow embedding of [EventTool], [EventAttr], [Event] and
    [EventListener], and the properties of the specification proved or
    refuted on it; then more of what that code does, and
    [select_two_quads] of cfme/tests/configure/test_default_views_cloud.py.

    Conventions of the embedding.
    - Python values that event attributes hold are the type [PyVal]
      (None, bool, int, str); floats and timestamps are left out.
    - A Python exception is a constructor of [Exn]; a function that may
      raise returns [Res].
    - A dict keyed by attribute name is a [gmap string _].
    - Code that reads or writes the listener or asks the appliance runs in
      the monad [M]: explicit state passing where a raised exception keeps
      the state reached so far.
    - The appliance, the callbacks, the driving thread and the interpreter
      are a [World]: what each REST call answers, whether a callback raises
      and whether the stop signal is raised, at each moment, and the order
      in which a set of names is walked. REST calls are taken to return;
      the driving thread is taken not to change [_events_to_listen] while
      the loop runs.
    - The listener keeps a [trace] of what it did. The code has no such
      field; it is there to speak of the queries made and of each
      assignment to the watermark.
    - An [Event] that [add_target_id] changes in place is changed in the
      entry of [_events_to_listen] that holds it; one [Event] object held
      by two entries is not followed. *)

From Stdlib Require Import ZArith Bool.
From stdpp Require Import base option list gmap strings sorting.

Local Open Scope string_scope.
Local Open Scope list_scope.
Local Open Scope Z_scope.

(** ** Python values *)

Inductive PyVal : Type :=
  | VNone
  | VBool (b : bool)
  | VInt (n : Z)
  | VStr (s : string).

#[global] Instance PyVal_eq_dec : EqDecision PyVal.
Proof. solve_decision. Defined.

Inductive PyType : Type := NoneType | TBool | TInt | TStr.

(** [type(v)]. *)
Definition type_of (v : PyVal) : PyType :=
  match v with
  | VNone => NoneType
  | VBool _ => TBool
  | VInt _ => TInt
  | VStr _ => TStr
  end.

(** [bool(v)]: None, False, 0 and the empty string are falsy. *)
Definition truthy (v : PyVal) : bool :=
  match v with
  | VNone => false
  | VBool b => b
  | VInt n => negb (n =? 0)
  | VStr s => negb (String.eqb s "")
  end.

(** [v is None]. *)
Definition is_none (v : PyVal) : bool :=
  match v with VNone => true | _ => false end.

(** The integer a numeric value stands for; [bool] is a subclass of [int]. *)
Definition as_number (v : PyVal) : option Z :=
  match v with
  | VBool b => Some (if b then 1 else 0)
  | VInt n => Some n
  | _ => None
  end.

(** [isinstance(v, Number)]. *)
Definition is_Number (v : PyVal) : bool :=
  match as_number v with Some _ => true | None => false end.

(** [a == b]: numbers compare by value (so [True == 1]), strings by content,
    None equals only None, and values of unrelated types differ. *)
Definition py_eq (a b : PyVal) : bool :=
  match as_number a, as_number b with
  | Some x, Some y => x =? y
  | None, None =>
      match a, b with
      | VNone, VNone => true
      | VStr s, VStr t => String.eqb s t
      | _, _ => false
      end
  | _, _ => false
  end.

(** ** Exceptions and results *)

Inductive Exn : Type :=
  | ValueError
  | TypeError
  | KeyError
  | IndexError
  | AttributeError.

#[global] Instance Exn_eq_dec : EqDecision Exn.
Proof. solve_decision. Defined.

Inductive Res (A : Type) : Type :=
  | Ok (a : A)
  | Raise (e : Exn).
Arguments Ok {A} a.
Arguments Raise {A} e.

#[global] Instance Res_ret : MRet Res := fun _ a => Ok a.
#[global] Instance Res_bind : MBind Res := fun _ _ f r =>
  match r with
  | Ok a => f a
  | Raise e => Raise e
  end.

(** [d[k]] on a dict: KeyError when the key is missing. *)
Definition getitem {A : Type} (d : gmap string A) (k : string) : Res A :=
  match d !! k with
  | Some a => Ok a
  | None => Raise KeyError
  end.

(** ** EventAttr *)

Record EventAttr : Type := mkEventAttr {
  name : string;
  value : PyVal;
  type : PyType;
  cmp_func : option (PyVal -> PyVal -> bool);
}.

(** [EventAttr.__init__]: the keyword arguments are the list [attrs]. More than one is a ValueError; indexing
    the items of none is an IndexError. *)
Definition EventAttr_init (attr_type : option PyType)
    (cmp : option (PyVal -> PyVal -> bool))
    (attrs : list (string * PyVal)) : Res EventAttr :=
  if (1 <? length attrs)%nat then Raise ValueError
  else match attrs with
       | [] => Raise IndexError
       | (k, v) :: _ =>
           Ok {| name := k; value := v;
                 type := default (type_of v) attr_type;
                 cmp_func := cmp |}
       end.

(** An [EventAttr] built from the one keyword argument [k=v]. *)
Definition attr_of (k : string) (v : PyVal) : EventAttr :=
  {| name := k; value := v; type := type_of v; cmp_func := None |}.

Record Event : Type := mkEvent {
  event_attrs : gmap string EventAttr;
}.

(** What a method can be handed where the code tests [isinstance]: an
    [EventAttr], an [Event], or some other object. *)
Inductive PyObject : Type :=
  | AnEventAttr (a : EventAttr)
  | AnEvent (e : Event)
  | Other (v : PyVal).

(** [EventAttr.match(self, attr)]. A compare function is taken to be a
    total boolean predicate. *)
Definition EventAttr_match (self : EventAttr) (attr : PyObject) : Res bool :=
  match attr with
  | AnEvent _ | Other _ => Raise ValueError
  | AnEventAttr attr =>
      if negb (String.eqb (name self) (name attr)) then Raise ValueError
      else if negb (truthy (value attr)) || negb (truthy (value self)) then
        Ok (is_none (value attr) && is_none (value self))
      else match cmp_func self with
           | Some f => Ok (f (value self) (value attr))
           | None => Ok (py_eq (value self) (value attr))
           end
  end.

(** ** Event *)

Definition DEFAULT_ATTRS : list string :=
  [ "created_on"; "event_type"; "href"; "id"; "message"; "source";
    "target_id"; "target_type"; "timestamp" ].

(** The body of the loop of [Event.add_attrs] for one attribute: stored
    under its name when that is [target_name] or a default attribute,
    ignored (with a warning) otherwise. *)
Definition add_attr (self : Event) (attr : EventAttr) : Event :=
  if String.eqb (name attr) "target_name" then
    {| event_attrs := <[name attr := attr]> (event_attrs self) |}
  else if bool_decide (name attr ∈ DEFAULT_ATTRS) then
    {| event_attrs := <[name attr := attr]> (event_attrs self) |}
  else self.

(** [Event.add_attrs(self, *attrs)]. *)
Definition Event_add_attrs (self : Event) (attrs : list EventAttr) : Event :=
  foldl add_attr self attrs.

(** [Event(event_tool, *args)]: the arguments that are [EventAttr]s are
    added, the others ignored. *)
Definition Event_init (args : list PyObject) : Event :=
  foldl (fun e arg => match arg with
                      | AnEventAttr a => Event_add_attrs e [a]
                      | AnEvent _ | Other _ => e
                      end)
        {| event_attrs := ∅ |} args.

(** The loop of [Event.matches] over the common attribute names. Python
    leaves the order in which a set is walked open; here it is the order of
    the list. *)
Fixpoint matches_loop (self evt : Event) (common_attrs : list string)
    : Res bool :=
  match common_attrs with
  | [] => Ok true
  | attr :: rest =>
      a ← getitem (event_attrs self) attr;
      b ← getitem (event_attrs evt) attr;
      r ← EventAttr_match a (AnEventAttr b);
      if negb r then Ok false else matches_loop self evt rest
  end.

(** [Event.matches(self, evt)]. *)
Definition Event_matches (self evt : Event) : Res bool :=
  matches_loop self evt
    (elements (dom (event_attrs self) ∩ dom (event_attrs evt))).

(** [k in self.event_attrs]. *)
Definition has_attr (self : Event) (k : string) : bool :=
  bool_decide (k ∈ dom (event_attrs self)).

(** ** The appliance and the record of what the listener did *)

(** A record of a REST collection: its attributes by name. *)
Abbreviation Entity := (gmap string PyVal).

(** [getattr(entity, key, None)]. *)
Definition getattr_default (entity : Entity) (key : string) : PyVal :=
  default VNone (entity !! key).

(** [entity.key]: AttributeError when the record has no such attribute. *)
Definition getattr (entity : Entity) (key : string) : Res PyVal :=
  match entity !! key with
  | Some v => Ok v
  | None => Raise AttributeError
  end.

(** A REST filter: [Q(field, op, v)] and the conjunction [q1 & q2]. *)
Inductive Q : Type :=
  | Q_ (field op : string) (v : PyVal)
  | Q_and (q1 q2 : Q).

(** What the listener does that is visible outside it, in the order it does
    it: the calls to the appliance, the reads of the stop signal, the
    callbacks it runs, and each assignment to [_last_processed_id]. *)
Inductive Action : Type :=
  | Sleep
  | StopIsSet
  | EventStreamsFilter (q : Q)
  | EventStreamsLast
  | CollectionFilter (target_rest : string) (q : Q)
  | Callback (cb : nat) (exp_event got_event : Event)
  | SetLastProcessed (v : PyVal).

(** What is outside the listener: the appliance's REST collections, the
    thread that raises the stop signal, the callbacks, and the interpreter's
    order on sets. An answer may depend on when the question is asked; the
    time is the number of actions done before it. Every REST call is taken
    to return; a callback may raise. *)
Record World : Type := mkWorld {
  (** [event_streams.filter(q)] *)
  event_streams_filter : nat -> Q -> list Entity;
  (** [event_streams.query_string(limit=1, sort_order='desc', sort_by='id')] *)
  event_streams_last : nat -> list Entity;
  (** [getattr(collections, target_rest).filter(q)] *)
  collection_filter : nat -> string -> Q -> list Entity;
  (** [_stop_event.is_set()] *)
  stop_is_set : nat -> bool;
  (** The exception that the call of callback [cb] on the expected and the
      observed event raises, if it raises one. *)
  callback_raises : nat -> nat -> Event -> Event -> option Exn;
  (** The order in which a [for] loop walks the set of the given names. *)
  set_order : list string -> list string;
}.

(** ** EventListener: state *)

(** One entry of [_events_to_listen]. A callback is known by a number; that
    it ran is an action of the trace. *)
Record ExpEvent : Type := mkExpEvent {
  event : Event;
  callback : option nat;
  matched_events : list Event;
  first_event : bool;
}.

Record EventListener : Type := mkEventListener {
  _events_to_listen : list ExpEvent;
  _last_processed_id : PyVal;
  trace : list Action;
}.

(** ** The monad of the listener's code *)

Definition M (A : Type) : Type := EventListener -> EventListener * Res A.

#[global] Instance M_ret : MRet M := fun _ a st => (st, Ok a).
#[global] Instance M_bind : MBind M := fun _ _ f m st =>
  match m st with
  | (st', Ok a) => f a st'
  | (st', Raise e) => (st', Raise e)
  end.

Definition raise {A : Type} (e : Exn) : M A := fun st => (st, Raise e).

Definition lift {A : Type} (r : Res A) : M A := fun st => (st, r).

Definition gets {A : Type} (f : EventListener -> A) : M A :=
  fun st => (st, Ok (f st)).

Definition modify (f : EventListener -> EventListener) : M unit :=
  fun st => (f st, Ok tt).

(** [try: m except e: handler]. *)
Definition try_except {A : Type} (m : M A) (e : Exn) (handler : M A) : M A :=
  fun st =>
    match m st with
    | (st', Raise e') => if decide (e' = e) then handler st' else (st', Raise e')
    | r => r
    end.

(** The listener after one more action. *)
Definition did (a : Action) (st : EventListener) : EventListener :=
  {| _events_to_listen := _events_to_listen st;
     _last_processed_id := _last_processed_id st;
     trace := trace st ++ [a] |}.

Definition emit (a : Action) : M unit := modify (did a).

(** A question to the world: it is recorded, and answered at the time it is
    asked. *)
Definition ask {A : Type} (a : Action) (answer : nat -> A) : M A :=
  fun st => (did a st, Ok (answer (length (trace st)))).

(** ** EventTool *)

Definition TARGET_TYPES : gmap string string :=
  list_to_map [ ("VmOrTemplate", "vms"); ("Host", "hosts");
                ("Service", "services") ].

(** [TARGET_TYPES[target_type]] when [target_type in TARGET_TYPES]: only a
    string can be a key of the table. *)
Definition target_rest_of (target_type : PyVal) : option string :=
  match target_type with
  | VStr s => TARGET_TYPES !! s
  | _ => None
  end.

(** [EventTool.process_id(self, target_type, target_name)]. *)
Definition EventTool_process_id (w : World) (target_type target_name : PyVal)
    : M PyVal :=
  if is_Number target_name then mret target_name
  else match target_rest_of target_type with
       | None => raise TypeError
       | Some target_rest =>
           let q := Q_ "name" "=" target_name in
           o ← ask (CollectionFilter target_rest q)
                   (fun t => collection_filter w t target_rest q);
           match o with
           | [] => raise ValueError
           | o0 :: _ => lift (getattr o0 "id")
           end
       end.

(** ** Event: the methods that need the tool *)

(** [Event.add_target_id(self)]. The event is changed in place in the
    code; here the changed event is the result. *)
Definition Event_add_target_id (w : World) (self : Event) : M Event :=
  if has_attr self "target_name" && negb (has_attr self "target_id") then
    try_except
      (ty ← lift (getitem (event_attrs self) "target_type");
       nm ← lift (getitem (event_attrs self) "target_name");
       target_id ← EventTool_process_id w (value ty) (value nm);
       a ← lift (EventAttr_init None None [("target_id", target_id)]);
       mret {| event_attrs := <["target_id" := a]> (event_attrs self) |})
      ValueError
      (mret self)
  else mret self.

(** [Event.build_from_entity(self, event_entity)]. *)
Definition Event_build_from_entity (self : Event) (event_entity : Entity)
    : Event :=
  foldl (fun e key =>
           Event_add_attrs e [attr_of key (getattr_default event_entity key)])
        self DEFAULT_ATTRS.

(** ** EventListener: the methods *)

Definition FILTER_ATTRS : list string :=
  [ "event_type"; "target_type"; "target_id"; "source" ].

Definition set_events_to_listen (l : list ExpEvent) : M unit :=
  modify (fun st => {| _events_to_listen := l;
                       _last_processed_id := _last_processed_id st;
                       trace := trace st |}).

(** The assignment [self._last_processed_id = v]. *)
Definition assign_last_processed_id (v : PyVal) : M unit :=
  modify (fun st => {| _events_to_listen := _events_to_listen st;
                       _last_processed_id := v;
                       trace := trace st ++ [SetLastProcessed v] |}).

(** [EventListener.set_last_record(self, evt=None)]. An [Event] object is
    always true, so [if evt:] asks whether one was passed. *)
Definition EventListener_set_last_record (w : World) (evt : option Event)
    : M unit :=
  match evt with
  | Some evt =>
      a ← lift (getitem (event_attrs evt) "id");
      assign_last_processed_id (value a)
  | None =>
      try_except
        (last_event_stream ← ask EventStreamsLast (event_streams_last w);
         match last_event_stream with
         | [] => raise IndexError
         | e :: _ => v ← lift (getattr e "id"); assign_last_processed_id v
         end)
        IndexError
        (mret tt)
  end.

(** The arguments of one [EventAttr(...)] call. *)
Record AttrArgs : Type := mkAttrArgs {
  arg_attr_type : option PyType;
  arg_cmp_func : option (PyVal -> PyVal -> bool);
  arg_attrs : list (string * PyVal);
}.

(** The names of the parameters of [EventAttr.__init__]. *)
Definition is_parameter (k : string) : bool :=
  String.eqb k "attr_type" || String.eqb k "cmp_func".

(** [EventAttr] called with the one keyword [k=v] unpacked from a dict. A
    keyword named as a parameter is taken by that parameter and leaves no
    attribute. *)
Definition EventAttr_of_keyword (kv : string * PyVal) : Res EventAttr :=
  if is_parameter kv.1 then EventAttr_init None None []
  else EventAttr_init None None [kv].

(** [EventListener.new_event(self, *attrs, **kwattrs)]: the keyword
    arguments first, then the positional dicts. *)
Definition EventListener_new_event (attrs : list AttrArgs)
    (kwattrs : list (string * PyVal)) : Res Event :=
  e1 ← foldl (fun r kv => e ← r;
                         a ← EventAttr_of_keyword kv;
                         mret (Event_add_attrs e [a]))
             (Ok (Event_init [])) kwattrs;
  foldl (fun r args => e ← r;
                       a ← EventAttr_init (arg_attr_type args)
                                          (arg_cmp_func args) (arg_attrs args);
                       mret (Event_add_attrs e [a]))
        (Ok e1) attrs.

(** [EventListener.listen_to(self, *evts, callback=, first_event=)]; the
    caller has applied [bool] to [first_event]. *)
Fixpoint EventListener_listen_to (evts : list PyObject) (cb : option nat)
    (first : bool) : M unit :=
  match evts with
  | [] => mret tt
  | AnEvent evt :: rest =>
      l ← gets _events_to_listen;
      set_events_to_listen
        (l ++ [ {| event := evt; callback := cb;
                   matched_events := []; first_event := first |} ]);;
      EventListener_listen_to rest cb first
  | _ :: _ => raise ValueError
  end.

(** [set(FILTER_ATTRS).intersection(set(evt.event_attrs))], in the order in
    which the loop of line 314 walks it. *)
Definition used_filters (w : World) (evt : Event) : list string :=
  set_order w (List.filter (has_attr evt) FILTER_ATTRS).

(** The loop of [get_next_portion] that adds one equality per filterable
    attribute the event has with a true value. *)
Definition add_filters (w : World) (evt : Event) (q : Q) : Q :=
  foldl (fun q filter_attr =>
           match event_attrs evt !! filter_attr with
           | Some evt_attr =>
               if truthy (value evt_attr)
               then Q_and q (Q_ filter_attr "=" (value evt_attr))
               else q
           | None => q
           end)
        q (used_filters w evt).

(** [EventListener.get_next_portion(self, evt)]. The result is the event as
    [add_target_id] left it, and what the method returns: [None] for the
    bare [return]. *)
Definition EventListener_get_next_portion (w : World) (evt : Event)
    : M (Event * option (list Entity)) :=
  evt ← Event_add_target_id w evt;
  if negb (has_attr evt "target_id") then mret (evt, None)
  else
    last ← gets _last_processed_id;
    let q := add_filters w evt (Q_ "id" ">" last) in
    l ← ask (EventStreamsFilter q) (fun t => event_streams_filter w t q);
    mret (evt, Some l).

(** [self._events_to_listen[i]]. *)
Definition exp_event_at (i : nat) : M ExpEvent :=
  l ← gets _events_to_listen;
  match l !! i with
  | Some e => mret e
  | None => raise IndexError
  end.

Definition update_exp_event (i : nat) (f : ExpEvent -> ExpEvent) : M unit :=
  l ← gets _events_to_listen;
  set_events_to_listen (alter f i l).

Definition with_event (evt : Event) (e : ExpEvent) : ExpEvent :=
  {| event := evt; callback := callback e;
     matched_events := matched_events e; first_event := first_event e |}.

Definition append_matched (got_event : Event) (e : ExpEvent) : ExpEvent :=
  {| event := event e; callback := callback e;
     matched_events := matched_events e ++ [got_event];
     first_event := first_event e |}.

(** The call [callback(exp_event=..., got_event=...)] of line 296: it is
    recorded, and it returns or raises as the world says. *)
Definition call_callback (w : World) (cb : nat) (exp_event got_event : Event)
    : M unit :=
  r ← ask (Callback cb exp_event got_event)
          (fun t => callback_raises w t cb exp_event got_event);
  match r with
  | Some e => raise e
  | None => mret tt
  end.

(** The inner loop of [process_events], lines 292-298: every record of the
    portion is compared with the expected event of entry [i]. *)
Fixpoint match_events (w : World) (i : nat) (portion : list Entity) : M unit :=
  match portion with
  | [] => mret tt
  | event_entity :: rest =>
      let got_event := Event_build_from_entity (Event_init []) event_entity in
      exp_event ← exp_event_at i;
      r ← lift (Event_matches (event exp_event) got_event);
      (if r : bool then
         match callback exp_event with
         | Some cb => call_callback w cb (event exp_event) got_event
         | None => mret tt
         end;;
         update_exp_event i (append_matched got_event)
       else mret tt);;
      EventListener_set_last_record w (Some got_event);;
      match_events w i rest
  end.

(** How one pass of the body of a [for] loop ends. *)
Inductive Ctl : Type := Next | Break.

(** The body of the loop over [_events_to_listen], lines 280-301, for the
    entry at index [i]. *)
Definition process_exp_event (w : World) (i : nat) : M Ctl :=
  exp_event ← exp_event_at i;
  if first_event exp_event && (0 <? length (matched_events exp_event))%nat
  then mret Next
  else
    r ← EventListener_get_next_portion w (event exp_event);
    update_exp_event i (with_event r.1);;
    match r.2 with
    | None | Some [] => mret Next
    | Some portion =>
        match_events w i portion;;
        stop ← ask StopIsSet (stop_is_set w);
        mret (if stop : bool then Break else Next)
    end.

(** The loop over [_events_to_listen], from index [i], [todo] entries to go. *)
Fixpoint for_exp_events (w : World) (i todo : nat) : M unit :=
  match todo with
  | O => mret tt
  | S todo =>
      c ← process_exp_event w i;
      match c with
      | Break => mret tt
      | Next => for_exp_events w (S i) todo
      end
  end.

(** [EventListener.process_events(self)], at most [fuel] passes of the
    [while] loop. The result tells whether the loop ended on the stop
    signal ([true]) or the passes ran out ([false]). *)
Fixpoint EventListener_process_events (w : World) (fuel : nat) : M bool :=
  match fuel with
  | O => mret false
  | S fuel =>
      stop ← ask StopIsSet (stop_is_set w);
      if stop : bool then mret true
      else
        emit Sleep;;
        n ← gets (fun st => length (_events_to_listen st));
        for_exp_events w 0 n;;
        EventListener_process_events w fuel
  end.

(** [EventListener.__init__]. *)
Definition EventListener_init : EventListener :=
  {| _events_to_listen := []; _last_processed_id := VNone; trace := [] |}.

(** [EventListener.start(self)] up to the start of the thread. *)
Definition EventListener_start (w : World) : M unit :=
  EventListener_set_last_record w None.

(** [EventListener.got_events]. *)
Definition EventListener_got_events (st : EventListener) : list ExpEvent :=
  _events_to_listen st.

(** [EventListener.reset_events(self)]. *)
Definition EventListener_reset_events : M unit := set_events_to_listen [].

(** [all(l)] for a list of integers. *)
Definition py_all (l : list nat) : bool := forallb (fun n => negb (n =? 0)%nat) l.

(** [EventListener.check_expected_events(self)]. *)
Definition EventListener_check_expected_events (st : EventListener) : bool :=
  py_all (map (fun e => length (matched_events e)) (EventListener_got_events st)).

(** [EventListener.__call__(self, *args, **kwargs)]; [first] is the
    [first_event] keyword when it was given. *)
Definition EventListener_call (args : list AttrArgs)
    (kwargs : list (string * PyVal)) (first : option PyVal) : M unit :=
  let first_event := default (VBool true) first in
  evt ← lift (EventListener_new_event args kwargs);
  EventListener_listen_to [AnEvent evt] None (truthy first_event).

(** ** What the properties are stated with *)

(** An attribute that matches a copy of itself: its value is None, or it is
    true and the compare function, when there is one, accepts the value
    against itself. *)
Definition self_matching (a : EventAttr) : bool :=
  is_none (value a) ||
  truthy (value a) &&
  match cmp_func a with
  | Some f => f (value a) (value a)
  | None => true
  end.

(** [wp m Q E st]: run from [st], [m] ends in a state that satisfies [Q a]
    when it returns [a], and [E] when it raises. *)
Definition wp {A : Type} (m : M A) (Q : A -> EventListener -> Prop)
    (E : EventListener -> Prop) (st : EventListener) : Prop :=
  match m st with
  | (st', Ok a) => Q a st'
  | (st', Raise _) => E st'
  end.

(** A run that keeps [I] whatever its outcome. *)
Definition keeps {A : Type} (I : EventListener -> Prop) (m : M A) : Prop :=
  forall st, I st -> wp m (fun _ => I) I st.

(** Whether an action is an assignment to [_last_processed_id]. *)
Definition is_assignment (a : Action) : bool :=
  match a with SetLastProcessed _ => true | _ => false end.

(** Entry [i] of [_events_to_listen] is [exp]. *)
Definition entry_is (i : nat) (exp : ExpEvent) (st : EventListener) : Prop :=
  _events_to_listen st !! i = Some exp.

(** The entries the loop passes over: a [first_event] entry that has a
    matched event (the test of line 283), and an entry whose expected event
    has neither [target_id] nor [target_name] (the test of line 307). *)
Definition is_skipped (exp : ExpEvent) : Prop :=
  first_event exp && (0 <? length (matched_events exp))%nat = true \/
  (has_attr (event exp) "target_id" = false /\
   has_attr (event exp) "target_name" = false).

(** The id of an observed record, as [build_from_entity] reads it. *)
Definition record_id (e : Entity) : PyVal := getattr_default e "id".

(** The bound [b] of the conjunct [Q('id', '>', b)] of a filter, when there
    is one and [b] is an integer. *)
Fixpoint id_bound (q : Q) : option Z :=
  match q with
  | Q_ field op (VInt b) =>
      if String.eqb field "id" && String.eqb op ">" then Some b else None
  | Q_ _ _ _ => None
  | Q_and q1 q2 =>
      match id_bound q1 with
      | Some b => Some b
      | None => id_bound q2
      end
  end.

(** The values assigned to [_last_processed_id], in order. *)
Definition watermark_writes (tr : list Action) : list PyVal :=
  omap (fun a => match a with SetLastProcessed v => Some v | _ => None end) tr.

(** An event source that answers in ascending order of id and honours
    the bound on the id: every answer holds records with integer ids,
    ascending, and each above [b] when the filter has the conjunct
    [id > b] for an integer [b]. *)
Definition ascending_source (w : World) : Prop :=
  forall t q, exists js,
    record_id <$> event_streams_filter w t q = VInt <$> js /\
    Sorted Z.le js /\
    forall b, id_bound q = Some b -> Forall (fun j => b < j) js.

(** The integers the watermark goes through: the one it was at the start,
    when it was one, and then the ones assigned. *)
Definition since (v0 : PyVal) (ids : list Z) : list Z :=
  match v0 with
  | VInt b0 => b0 :: ids
  | _ => ids
  end.

(** Since the state [st0] the listener has assigned integers to the
    watermark, in ascending order and none below the watermark of [st0]
    when that was an integer; the watermark is now [v], the last of them,
    or what it was in [st0] when there is none. *)
Definition at_watermark (st0 : EventListener) (v : PyVal) (st : EventListener)
    : Prop :=
  exists new ids,
    trace st = trace st0 ++ new /\
    watermark_writes new = VInt <$> ids /\
    Sorted Z.le (since (_last_processed_id st0) ids) /\
    v = match last ids with
        | Some c => VInt c
        | None => _last_processed_id st0
        end /\
    _last_processed_id st = v.

(** The same, whatever the watermark now is. *)
Definition ascended (st0 st : EventListener) : Prop :=
  exists v, at_watermark st0 v st.

(** ** Example appliances, events and listeners *)

(** Expected events: a [vm_create] on the target 42 from any source, on the
    VM named [vm1], on anything, and on the target 7. *)
Definition vm_create_on_42 : Event :=
  Event_init [AnEventAttr (attr_of "event_type" (VStr "vm_create"));
              AnEventAttr (attr_of "target_id" (VInt 42));
              AnEventAttr (attr_of "source" VNone)].

Definition vm_create_on_vm1 : Event :=
  Event_init [AnEventAttr (attr_of "event_type" (VStr "vm_create"));
              AnEventAttr (attr_of "target_type" (VStr "VmOrTemplate"));
              AnEventAttr (attr_of "target_name" (VStr "vm1"))].

Definition any_vm_create : Event :=
  Event_init [AnEventAttr (attr_of "event_type" (VStr "vm_create"))].

Definition vm_create_on_7 : Event :=
  Event_init [AnEventAttr (attr_of "event_type" (VStr "vm_create"));
              AnEventAttr (attr_of "target_id" (VInt 7))].

(** An appliance on which the VM [vm1] comes to exist, with id 42, after
    the first question; it has no events and never raises the stop signal. *)
Definition vm1_appears : World :=
  {| event_streams_filter := fun _ _ => [];
     event_streams_last := fun _ => [];
     collection_filter := fun t _ _ =>
       if (t =? 0)%nat then [] else [ {["id" := VInt 42]} ];
     stop_is_set := fun _ => false;
     callback_raises := fun _ _ _ _ => None;
     set_order := fun names => names |}.

(** The record of a [vm_create] event with the given id on the target with
    the given id. *)
Definition vm_create_record (id target_id : Z) : Entity :=
  list_to_map [ ("id", VInt id); ("event_type", VStr "vm_create");
                ("target_id", VInt target_id) ].

(** Whether the id of a record is an integer above [b]. *)
Definition above (b : Z) (e : Entity) : bool :=
  match record_id e with
  | VInt n => b <? n
  | _ => false
  end.

(** An event source that holds [records], in that order, and answers a
    filter with those whose id is above the filter's bound; nothing else
    exists, the stop signal is never raised, no callback raises, and a set
    is walked in the order of [FILTER_ATTRS]. *)
Definition source_of (records : list Entity) : World :=
  {| event_streams_filter := fun _ q =>
       match id_bound q with
       | Some b => List.filter (above b) records
       | None => []
       end;
     event_streams_last := fun _ => [];
     collection_filter := fun _ _ _ => [];
     stop_is_set := fun _ => false;
     callback_raises := fun _ _ _ _ => None;
     set_order := fun names => names |}.

(** The same source, which answers a filter without an integer bound on
    the id with all its records. *)
Definition open_source (records : list Entity) : World :=
  {| event_streams_filter := fun _ q =>
       match id_bound q with
       | Some b => List.filter (above b) records
       | None => records
       end;
     event_streams_last := fun _ => [];
     collection_filter := fun _ _ _ => [];
     stop_is_set := fun _ => false;
     callback_raises := fun _ _ _ _ => None;
     set_order := fun names => names |}.

(** A listener with the watermark 2 and one entry, which expects [evt], has
    no callback and has the given [first_event] flag. *)
Definition listening_for (evt : Event) (first : bool) : EventListener :=
  {| _events_to_listen :=
       [ {| event := evt; callback := None; matched_events := [];
            first_event := first |} ];
     _last_processed_id := VInt 2;
     trace := [] |}.

(** ** Well-formed events *)

(** The names [add_attrs] stores: [target_name] and the default attributes. *)
Definition recognised (k : string) : bool :=
  String.eqb k "target_name" || bool_decide (k ∈ DEFAULT_ATTRS).

(** Every attribute of the event is stored under its own name, and that
    name is recognised. *)
Definition wf_event (e : Event) : Prop :=
  forall k a, event_attrs e !! k = Some a -> name a = k /\ recognised k = true.

(** Whether two attributes of the same name match, as [EventAttr.match]
    decides it. *)
Definition attrs_agree (sa sb : EventAttr) : bool :=
  if negb (truthy (value sb)) || negb (truthy (value sa)) then
    is_none (value sb) && is_none (value sa)
  else match cmp_func sa with
       | Some f => f (value sa) (value sb)
       | None => py_eq (value sa) (value sb)
       end.

(** Whether the attributes that two events hold under the name [k] match;
    true when one of them has none. *)
Definition agree_on (a b : Event) (k : string) : bool :=
  match event_attrs a !! k, event_attrs b !! k with
  | Some sa, Some sb => attrs_agree sa sb
  | _, _ => true
  end.

(** ** Registering expectations *)

(** The entry that [listen_to] makes for an event. *)
Definition entry_for (cb : option nat) (first : bool) (evt : Event) : ExpEvent :=
  {| event := evt; callback := cb; matched_events := []; first_event := first |}.

(** The arguments of [listen_to] before the first that is not an [Event]. *)
Fixpoint events_before_other (evts : list PyObject) : list Event :=
  match evts with
  | AnEvent evt :: rest => evt :: events_before_other rest
  | _ => []
  end.

(** Whether every argument is an [Event]. *)
Definition all_events (evts : list PyObject) : bool :=
  forallb (fun o => match o with AnEvent _ => true | _ => false end) evts.

(** The listener with [l] as its [_events_to_listen]. *)
Definition listening_to (l : list ExpEvent) (st : EventListener) : EventListener :=
  (set_events_to_listen l st).1.

(** ** The loop *)

(** The test of line 283: a [first_event] entry that has a matched event. *)
Definition already_occurred (exp : ExpEvent) : bool :=
  first_event exp && (0 <? length (matched_events exp))%nat.

(** Whether an action asks the world something or sleeps: neither a
    callback nor an assignment to the watermark. *)
Definition is_question (a : Action) : bool :=
  match a with
  | Callback _ _ _ | SetLastProcessed _ => false
  | _ => true
  end.

(** What [add_target_id] can make of an event: the same event, or, when it
    had a [target_name] and no [target_id], the event with a [target_id]. *)
Definition event_grows (evt evt' : Event) : Prop :=
  evt' = evt \/
  (has_attr evt "target_name" = true /\ has_attr evt "target_id" = false /\
   exists id, evt' = {| event_attrs :=
                          <["target_id" := attr_of "target_id" id]>
                            (event_attrs evt) |}).

(** The observed event of a record, line 293. *)
Definition observed (event_entity : Entity) : Event :=
  Event_build_from_entity (Event_init []) event_entity.

(** Lines 295-297 for a match of entry [i], which is [exp], when the
    callback returns: the callback, when there is one, then the observed
    event appended. *)
Definition record_match (i : nat) (exp : ExpEvent) (got_event : Event) : M unit :=
  match callback exp with
  | Some cb => emit (Callback cb (event exp) got_event)
  | None => mret tt
  end;;
  update_exp_event i (append_matched got_event).

(** An entry as the loop may have left it: the same callback and flag, the
    matched events it had and maybe more after them, and the event as it
    was or with its [target_id] resolved. *)
Definition entry_extends (e0 e : ExpEvent) : Prop :=
  callback e = callback e0 /\ first_event e = first_event e0 /\
  matched_events e0 `prefix_of` matched_events e /\
  event_grows (event e0) (event e).

(** Every matched event of the entry was built from a record and matches
    the expected event, which has a [target_id] when anything matched. *)
Definition sound_entry (exp : ExpEvent) : Prop :=
  (matched_events exp <> [] -> has_attr (event exp) "target_id" = true) /\
  Forall (fun got => (exists ent, got = observed ent) /\
                     Event_matches (event exp) got = Ok true)
         (matched_events exp).





(** The conjuncts of a filter, left to right. *)
Fixpoint conjuncts (q : Q) : list Q :=
  match q with
  | Q_and q1 q2 => conjuncts q1 ++ conjuncts q2
  | _ => [q]
  end.

(** The equality that [get_next_portion] adds for a filterable attribute:
    none when the event has no such attribute or its value is false. *)
Definition equality_for (evt : Event) (filter_attr : string) : option Q :=
  match event_attrs evt !! filter_attr with
  | Some evt_attr =>
      if truthy (value evt_attr)
      then Some (Q_ filter_attr "=" (value evt_attr))
      else None
  | None => None
  end.


(** The world [w] with sets walked in the reverse of its order. *)
Definition walking_backwards (w : World) : World :=
  {| event_streams_filter := event_streams_filter w;
     event_streams_last := event_streams_last w;
     collection_filter := collection_filter w;
     stop_is_set := stop_is_set w;
     callback_raises := callback_raises w;
     set_order := fun names => rev (set_order w names) |}.

(** The world [w] with the stop signal raised from the moment [T] on. *)
Definition stopped_from (T : nat) (w : World) : World :=
  {| event_streams_filter := event_streams_filter w;
     event_streams_last := event_streams_last w;
     collection_filter := collection_filter w;
     stop_is_set := fun t => (T <=? t)%nat;
     callback_raises := callback_raises w;
     set_order := set_order w |}.

(** ** cfme/tests/configure/test_default_views_cloud.py *)

(** The loop of [select_two_quads] over the quadicons of the page, with
    the counter as it stands; the result is the quadicons whose checkbox
    it fills, in order. *)
Fixpoint select_two_quads_loop {A : Type} (count : nat) (quads : list A)
    : list A :=
  match quads with
  | [] => []
  | quad :: rest =>
      let count := S count in
      if (2 <? count)%nat then []
      else quad :: select_two_quads_loop count rest
  end.

(** [select_two_quads()]. *)
Definition select_two_quads {A : Type} (quads : list A) : list A :=
  select_two_quads_loop 0 quads.

(** * Properties *)

(** ** Python values *)

Lemma py_eq_refl (v : PyVal) : py_eq v v = true.
Proof.
  destruct v as [|b|n|s]; unfold py_eq; simpl.
  - reflexivity.
  - destruct b; reflexivity.
  - apply Z.eqb_refl.
  - apply String.eqb_refl.
Qed.

(** On two strings, or on two integers, [==] is equality of the values. *)
Lemma py_eq_same_type (a b : PyVal) :
  type_of a = type_of b -> (py_eq a b = true <-> a = b).
Proof.
  destruct a as [|x|x|x], b as [|y|y|y]; simpl; try discriminate; intros _;
    unfold py_eq; simpl.
  - tauto.
  - destruct x, y; simpl; split; congruence.
  - rewrite Z.eqb_eq. split; congruence.
  - rewrite String.eqb_eq. split; congruence.
Qed.

(** ** EventAttr.match *)

Section AttributeMatcher.

Variables self attr : EventAttr.
Hypothesis same_name : name self = name attr.

Lemma match_same_name :
  EventAttr_match self (AnEventAttr attr) =
  if negb (truthy (value attr)) || negb (truthy (value self)) then
    Ok (is_none (value attr) && is_none (value self))
  else match cmp_func self with
       | Some f => Ok (f (value self) (value attr))
       | None => Ok (py_eq (value self) (value attr))
       end.
Proof.
  unfold EventAttr_match. rewrite same_name, String.eqb_refl. reflexivity.
Qed.

(** C3. For two attributes of the same name: when either value is false
    (None, False, 0, the empty string), [match] returns true exactly when
    both values are None; otherwise, with a compare function on the
    receiver it returns what that function gives on (receiver's value,
    argument's value); otherwise it returns whether the two values are
    equal by [==]. *)
Theorem match_equal_names :
  (truthy (value self) = false \/ truthy (value attr) = false ->
     exists b, EventAttr_match self (AnEventAttr attr) = Ok b /\
               (b = true <-> value self = VNone /\ value attr = VNone)) /\
  (truthy (value self) = true -> truthy (value attr) = true ->
     forall f, cmp_func self = Some f ->
     EventAttr_match self (AnEventAttr attr)
     = Ok (f (value self) (value attr))) /\
  (truthy (value self) = true -> truthy (value attr) = true ->
     cmp_func self = None ->
     EventAttr_match self (AnEventAttr attr)
     = Ok (py_eq (value self) (value attr))).
Proof.
  rewrite match_same_name. repeat split.
  - intros Hf.
    assert (negb (truthy (value attr)) || negb (truthy (value self)) = true)
      as -> by (destruct Hf as [-> | ->]; simpl; auto using orb_true_r).
    eexists; split; [reflexivity|].
    rewrite andb_true_iff.
    destruct (value self), (value attr); simpl; intuition congruence.
  - intros -> -> f ->. reflexivity.
  - intros -> -> ->. reflexivity.
Qed.

End AttributeMatcher.

(** C3, at the attributes [event_type="vm_create"] and
    [event_type="vm_start"] with no compare function. *)
Lemma match_equal_names_witness :
  EventAttr_match (attr_of "event_type" (VStr "vm_create"))
                  (AnEventAttr (attr_of "event_type" (VStr "vm_start")))
  = Ok false.
Proof.
  exact (proj2 (proj2 (match_equal_names
                         (attr_of "event_type" (VStr "vm_create"))
                         (attr_of "event_type" (VStr "vm_start"))
                         eq_refl))
               eq_refl eq_refl eq_refl).
Defined.

(** C10. [match] raises ValueError, and returns no boolean, when its
    argument is not an [EventAttr] or has another name than the receiver. *)
Theorem match_raises_on_mismatch (self : EventAttr) (attr : PyObject) :
  match attr with
  | AnEventAttr a => name self <> name a
  | AnEvent _ | Other _ => True
  end ->
  EventAttr_match self attr = Raise ValueError.
Proof.
  destruct attr as [a| |]; simpl; try reflexivity.
  intros Hne. apply String.eqb_neq in Hne. rewrite Hne. reflexivity.
Qed.

Lemma match_raises_on_mismatch_witness :
  EventAttr_match (attr_of "source" (VStr "EVM"))
                  (AnEventAttr (attr_of "message" (VStr "EVM")))
  = Raise ValueError
  /\ EventAttr_match (attr_of "source" (VStr "EVM")) (Other (VStr "EVM"))
     = Raise ValueError.
Proof.
  split.
  - apply (match_raises_on_mismatch (attr_of "source" (VStr "EVM"))
             (AnEventAttr (attr_of "message" (VStr "EVM")))).
    simpl. discriminate.
  - apply (match_raises_on_mismatch (attr_of "source" (VStr "EVM"))
             (Other (VStr "EVM"))).
    exact I.
Defined.

(** ** Event.matches *)

Lemma matches_loop_cons (a b : Event) (k : string) (l : list string) :
  matches_loop a b (k :: l) =
  match event_attrs a !! k, event_attrs b !! k with
  | Some sa, Some sb =>
      match EventAttr_match sa (AnEventAttr sb) with
      | Ok true => matches_loop a b l
      | Ok false => Ok false
      | Raise e => Raise e
      end
  | _, _ => Raise KeyError
  end.
Proof.
  cbn [matches_loop]. unfold getitem.
  destruct (event_attrs a !! k) as [sa|]; [|reflexivity].
  destruct (event_attrs b !! k) as [sb|]; [|reflexivity].
  cbn [mbind Res_bind].
  destruct (EventAttr_match sa (AnEventAttr sb)) as [[|]|e]; reflexivity.
Qed.

Lemma matches_loop_true (a b : Event) (l : list string) :
  matches_loop a b l = Ok true <->
  forall k, k ∈ l ->
    exists sa sb, event_attrs a !! k = Some sa /\ event_attrs b !! k = Some sb /\
                  EventAttr_match sa (AnEventAttr sb) = Ok true.
Proof.
  induction l as [|k l IH].
  - split; [intros _ k Hk; inversion Hk | reflexivity].
  - rewrite matches_loop_cons.
    destruct (event_attrs a !! k) as [sa|] eqn:Ha;
      [destruct (event_attrs b !! k) as [sb|] eqn:Hb;
       [destruct (EventAttr_match sa (AnEventAttr sb)) as [[|]|e] eqn:Hm|]|].
    + rewrite IH. split.
      * intros H k' Hk'. apply elem_of_cons in Hk' as [->|Hk']; eauto.
      * intros H k' Hk'. apply H. now apply elem_of_cons; right.
    + split; [discriminate|]. intros H.
      destruct (H k) as (sa' & sb' & Ha' & Hb' & Hm'); [apply elem_of_cons; auto|].
      congruence.
    + split; [discriminate|]. intros H.
      destruct (H k) as (sa' & sb' & Ha' & Hb' & Hm'); [apply elem_of_cons; auto|].
      congruence.
    + split; [discriminate|]. intros H.
      destruct (H k) as (sa' & sb' & Ha' & Hb' & Hm'); [apply elem_of_cons; auto|].
      congruence.
    + split; [discriminate|]. intros H.
      destruct (H k) as (sa' & sb' & Ha' & Hb' & Hm'); [apply elem_of_cons; auto|].
      congruence.
Qed.

Lemma matches_true (a b : Event) :
  Event_matches a b = Ok true <->
  forall k sa sb,
    event_attrs a !! k = Some sa -> event_attrs b !! k = Some sb ->
    EventAttr_match sa (AnEventAttr sb) = Ok true.
Proof.
  unfold Event_matches. rewrite matches_loop_true. split.
  - intros H k sa sb Ha Hb.
    destruct (H k) as (sa' & sb' & Ha' & Hb' & Hm).
    + apply elem_of_elements, elem_of_intersection.
      split; apply elem_of_dom; eauto.
    + congruence.
  - intros H k Hk.
    apply elem_of_elements, elem_of_intersection in Hk as [Ha Hb].
    apply elem_of_dom in Ha as [sa Ha]. apply elem_of_dom in Hb as [sb Hb].
    eauto 6.
Qed.

(** C5. [matches] returns true exactly when every attribute of the
    receiver whose name is also a name of the argument matches the
    argument's attribute of that name; so it returns true when the two
    events share no attribute name, whatever else they hold. *)
Theorem matches_iff_common_attrs_match (a b : Event) :
  (Event_matches a b = Ok true <->
   forall k, k ∈ dom (event_attrs a) ∩ dom (event_attrs b) ->
     exists sa sb, event_attrs a !! k = Some sa /\ event_attrs b !! k = Some sb /\
                   EventAttr_match sa (AnEventAttr sb) = Ok true)
  /\ (dom (event_attrs a) ∩ dom (event_attrs b) = ∅ ->
      Event_matches a b = Ok true).
Proof.
  assert (Event_matches a b = Ok true <->
          forall k, k ∈ dom (event_attrs a) ∩ dom (event_attrs b) ->
            exists sa sb, event_attrs a !! k = Some sa /\
                          event_attrs b !! k = Some sb /\
                          EventAttr_match sa (AnEventAttr sb) = Ok true) as Hiff.
  { unfold Event_matches. rewrite matches_loop_true.
    split; intros H k Hk; apply H; now apply elem_of_elements. }
  split; [exact Hiff|].
  intros Hempty. apply Hiff. intros k Hk. rewrite Hempty in Hk.
  now apply not_elem_of_empty in Hk.
Qed.

(** C5, at an expectation on [event_type] and an observed event that has
    only a [message]: no common name, so they match. *)
Lemma matches_iff_common_attrs_match_witness :
  Event_matches
    (Event_init [AnEventAttr (attr_of "event_type" (VStr "vm_create"))])
    (Event_init [AnEventAttr (attr_of "message" (VStr "created"))])
  = Ok true.
Proof.
  apply (proj2 (matches_iff_common_attrs_match
                  (Event_init [AnEventAttr (attr_of "event_type" (VStr "vm_create"))])
                  (Event_init [AnEventAttr (attr_of "message" (VStr "created"))]))).
  vm_compute. reflexivity.
Defined.

Lemma match_self (a : EventAttr) :
  EventAttr_match a (AnEventAttr a) = Ok (self_matching a).
Proof.
  rewrite match_same_name by reflexivity. unfold self_matching.
  destruct (truthy (value a)) eqn:Ht; simpl.
  - assert (is_none (value a) = false) as ->
      by (destruct (value a); simpl in *; congruence).
    simpl. destruct (cmp_func a); [reflexivity|]. now rewrite py_eq_refl.
  - now rewrite andb_diag, orb_false_r.
Qed.

(** C4, as amended. An event all of whose attributes are [self_matching]
    matches an identical copy of itself. *)
Theorem matches_copy (d : Event) :
  (forall k a, event_attrs d !! k = Some a -> self_matching a = true) ->
  Event_matches d d = Ok true.
Proof.
  intros H. apply matches_true. intros k sa sb Ha Hb.
  assert (sa = sb) as <- by congruence.
  rewrite match_self. f_equal. eauto.
Qed.

Lemma matches_copy_witness : Event_matches vm_create_on_42 vm_create_on_42 = Ok true.
Proof.
  apply (matches_copy vm_create_on_42).
  apply map_Forall_to_list. vm_compute. repeat constructor.
Defined.

(** C4 as the specification states it fails: an event whose only attribute
    is [message=""] does not match itself, because a false value that is
    not None matches nothing. *)
Lemma matches_copy_fails :
  ~ (forall d : Event, Event_matches d d = Ok true).
Proof.
  intros H.
  specialize (H (Event_init [AnEventAttr (attr_of "message" (VStr ""))])).
  vm_compute in H. discriminate.
Qed.

(** ** EventTool.process_id *)

(** C7. [process_id] returns a numeric [target_name] as it is, whatever the
    type, and asks nothing. Otherwise a type that is not in [TARGET_TYPES]
    raises TypeError, again without a query. Otherwise the collection of
    the type is asked for the records whose name equals [target_name]:
    none raises ValueError, and else the result is the id of the first. *)
Theorem process_id_cases (w : World) (target_type target_name : PyVal)
    (st : EventListener) :
  (is_Number target_name = true ->
     EventTool_process_id w target_type target_name st = (st, Ok target_name))
  /\ (is_Number target_name = false -> target_rest_of target_type = None ->
     EventTool_process_id w target_type target_name st = (st, Raise TypeError))
  /\ (is_Number target_name = false ->
      forall target_rest, target_rest_of target_type = Some target_rest ->
      let q := Q_ "name" "=" target_name in
      let o := collection_filter w (length (trace st)) target_rest q in
      let st' := did (CollectionFilter target_rest q) st in
      (o = [] ->
         EventTool_process_id w target_type target_name st
         = (st', Raise ValueError))
      /\ (forall o0 rest id, o = o0 :: rest -> o0 !! "id" = Some id ->
         EventTool_process_id w target_type target_name st = (st', Ok id))).
Proof.
  unfold EventTool_process_id. split; [|split].
  - intros ->. reflexivity.
  - intros -> ->. reflexivity.
  - intros -> target_rest ->. unfold mbind, M_bind, ask. split.
    + intros ->. reflexivity.
    + intros o0 rest id -> Hid. unfold lift, getattr. now rewrite Hid.
Qed.

(** C7, at the name ["vm1"] of type [VmOrTemplate] on an appliance whose
    [vms] collection answers with the records of ids 42 and 43. *)
Lemma process_id_cases_witness :
  let w := {| event_streams_filter := fun _ _ => [];
              event_streams_last := fun _ => [];
              collection_filter := fun _ _ _ =>
                [ {["id" := VInt 42]}; {["id" := VInt 43]} ];
              stop_is_set := fun _ => false;
              callback_raises := fun _ _ _ _ => None;
              set_order := fun names => names |} in
  EventTool_process_id w (VStr "VmOrTemplate") (VStr "vm1") EventListener_init
  = (did (CollectionFilter "vms" (Q_ "name" "=" (VStr "vm1"))) EventListener_init,
     Ok (VInt 42)).
Proof.
  intros w.
  exact (proj2 (proj2 (proj2 (process_id_cases w (VStr "VmOrTemplate")
                                (VStr "vm1") EventListener_init))
                      eq_refl "vms" eq_refl)
               {["id" := VInt 42]} [ {["id" := VInt 43]} ] (VInt 42)
               eq_refl eq_refl).
Defined.

(** ** Running the monad *)

Lemma run_bind {A B : Type} (m : M A) (f : A -> M B) (st : EventListener) :
  (m ≫= f) st =
  match m st with
  | (st', Ok a) => f a st'
  | (st', Raise e) => (st', Raise e)
  end.
Proof. reflexivity. Qed.

Lemma run_bind_ok {A B : Type} (m : M A) (f : A -> M B) st st' a :
  m st = (st', Ok a) -> (m ≫= f) st = f a st'.
Proof. intros H. now rewrite run_bind, H. Qed.

Lemma run_bind_raise {A B : Type} (m : M A) (f : A -> M B) st st' e :
  m st = (st', Raise e) -> (m ≫= f) st = (st', Raise e).
Proof. intros H. now rewrite run_bind, H. Qed.

Lemma run_try_ok {A : Type} (m h : M A) (e : Exn) st st' a :
  m st = (st', Ok a) -> try_except m e h st = (st', Ok a).
Proof. intros H. unfold try_except. now rewrite H. Qed.

Lemma run_try_caught {A : Type} (m h : M A) (e : Exn) st st' :
  m st = (st', Raise e) -> try_except m e h st = h st'.
Proof. intros H. unfold try_except. rewrite H. now rewrite decide_True. Qed.

Lemma run_try_passed {A : Type} (m h : M A) (e e' : Exn) st st' :
  m st = (st', Raise e') -> e' <> e ->
  try_except m e h st = (st', Raise e').
Proof. intros H Hne. unfold try_except. rewrite H. now rewrite decide_False. Qed.

(** ** Event.add_target_id *)

Lemma add_target_id_skip (w : World) (self : Event) (st : EventListener) :
  has_attr self "target_name" = false \/ has_attr self "target_id" = true ->
  Event_add_target_id w self st = (st, Ok self).
Proof.
  unfold Event_add_target_id.
  intros [-> | ->]; [reflexivity|]. now rewrite andb_false_r.
Qed.

(** C6. [add_target_id] leaves the event as it is, and asks nothing, when
    the event has no [target_name] or already has a [target_id]. When it
    has a [target_name] and no [target_id], the id is looked up from the
    values of [target_type] and [target_name]: an id found is stored as the
    attribute [target_id]; a ValueError (not found) is swallowed and the
    event is left as it is. *)
Theorem add_target_id_cases (w : World) (self : Event) (st : EventListener) :
  (has_attr self "target_name" = false \/ has_attr self "target_id" = true ->
     Event_add_target_id w self st = (st, Ok self))
  /\ (has_attr self "target_name" = true -> has_attr self "target_id" = false ->
      forall ty nm st',
        event_attrs self !! "target_type" = Some ty ->
        event_attrs self !! "target_name" = Some nm ->
        (forall id,
           EventTool_process_id w (value ty) (value nm) st = (st', Ok id) ->
           Event_add_target_id w self st
           = (st', Ok {| event_attrs :=
                           <["target_id" := attr_of "target_id" id]>
                             (event_attrs self) |}))
        /\ (EventTool_process_id w (value ty) (value nm) st
            = (st', Raise ValueError) ->
            Event_add_target_id w self st = (st', Ok self))).
Proof.
  split; [apply add_target_id_skip|]. unfold Event_add_target_id.
  intros -> -> ty nm st' Hty Hnm. cbn [andb negb].
  unfold getitem. rewrite Hty, Hnm. split.
  - intros id Hid. apply run_try_ok.
    rewrite run_bind. cbn [lift]. rewrite run_bind. cbn [lift].
    rewrite (run_bind_ok _ _ _ _ _ Hid). reflexivity.
  - intros Hid. erewrite run_try_caught; [reflexivity|].
    rewrite run_bind. cbn [lift]. rewrite run_bind. cbn [lift].
    now rewrite (run_bind_raise _ _ _ _ _ Hid).
Qed.

(** C6, on [vm1_appears]: before the VM exists the expectation is left
    unresolved and no error comes out; once it exists, [target_id=42] is
    stored. *)
Lemma add_target_id_cases_witness :
  let asked := CollectionFilter "vms" (Q_ "name" "=" (VStr "vm1")) in
  let st1 := did asked EventListener_init in
  Event_add_target_id vm1_appears vm_create_on_vm1 EventListener_init
  = (st1, Ok vm_create_on_vm1)
  /\ Event_add_target_id vm1_appears vm_create_on_vm1 st1
     = (did asked st1,
        Ok {| event_attrs := <["target_id" := attr_of "target_id" (VInt 42)]>
                               (event_attrs vm_create_on_vm1) |}).
Proof.
  intros asked st1. split.
  - refine (proj2 (proj2 (add_target_id_cases vm1_appears vm_create_on_vm1
                            EventListener_init) _ _
                         (attr_of "target_type" (VStr "VmOrTemplate"))
                         (attr_of "target_name" (VStr "vm1")) st1 _ _) _);
      vm_compute; reflexivity.
  - refine (proj1 (proj2 (add_target_id_cases vm1_appears vm_create_on_vm1
                            st1) _ _
                         (attr_of "target_type" (VStr "VmOrTemplate"))
                         (attr_of "target_name" (VStr "vm1")) (did asked st1)
                         _ _) (VInt 42) _);
      vm_compute; reflexivity.
Defined.

(** ** check_expected_events and reset_events *)

Lemma py_all_lengths {A : Type} (f : A -> nat) (l : list A) :
  py_all (map f l) = true <-> Forall (fun a => f a <> 0%nat) l.
Proof.
  unfold py_all. rewrite forallb_forall, Forall_forall. split.
  - intros H a Ha. specialize (H (f a)).
    rewrite negb_true_iff, Nat.eqb_neq in H. apply H.
    apply in_map. now apply list_elem_of_In.
  - intros H n Hn. apply in_map_iff in Hn as (a & <- & Ha).
    rewrite negb_true_iff, Nat.eqb_neq. apply H. now apply list_elem_of_In.
Qed.

(** C9. [check_expected_events] is true exactly when every entry of
    [_events_to_listen] has a matched event; after [reset_events] there is
    no entry, and it is true. *)
Theorem check_expected_events_iff (st : EventListener) :
  (EventListener_check_expected_events st = true <->
   Forall (fun e => matched_events e <> []) (_events_to_listen st))
  /\ _events_to_listen (EventListener_reset_events st).1 = []
  /\ EventListener_check_expected_events (EventListener_reset_events st).1
     = true.
Proof.
  split; [|split; reflexivity].
  unfold EventListener_check_expected_events, EventListener_got_events.
  rewrite py_all_lengths. apply Forall_iff. intros e.
  destruct (matched_events e); simpl; split; congruence.
Qed.

(** ** Reasoning about runs: weakest preconditions *)

Lemma wp_bind {A B : Type} (m : M A) (f : A -> M B) Q E st :
  wp m (fun a => wp (f a) Q E) E st -> wp (m ≫= f) Q E st.
Proof.
  unfold wp. rewrite run_bind. destruct (m st) as [st' [a|e]]; auto.
Qed.

Lemma wp_mono {A : Type} (m : M A) (Q Q' : A -> EventListener -> Prop)
    (E E' : EventListener -> Prop) st :
  wp m Q E st ->
  (forall a st', Q a st' -> Q' a st') -> (forall st', E st' -> E' st') ->
  wp m Q' E' st.
Proof.
  unfold wp. destruct (m st) as [st' [a|e]]; auto.
Qed.

Lemma wp_ret {A : Type} (a : A) Q E st : Q a st -> wp (mret a) Q E st.
Proof. auto. Qed.

Lemma wp_raise {A : Type} (e : Exn) (Q : A -> _) E st :
  E st -> wp (raise e) Q E st.
Proof. auto. Qed.

Lemma wp_lift {A : Type} (r : Res A) Q E st :
  match r with Ok a => Q a st | Raise _ => E st end -> wp (lift r) Q E st.
Proof. auto. Qed.

Lemma wp_gets {A : Type} (f : EventListener -> A) Q E st :
  Q (f st) st -> wp (gets f) Q E st.
Proof. auto. Qed.

Lemma wp_modify (f : EventListener -> EventListener) Q E st :
  Q tt (f st) -> wp (modify f) Q E st.
Proof. auto. Qed.

Lemma wp_ask {A : Type} (a : Action) (answer : nat -> A) Q E st :
  Q (answer (length (trace st))) (did a st) -> wp (ask a answer) Q E st.
Proof. auto. Qed.

Lemma wp_try {A : Type} (m h : M A) (e : Exn) Q E st :
  wp m Q (fun st' => E st' /\ wp h Q E st') st -> wp (try_except m e h) Q E st.
Proof.
  unfold wp, try_except. destruct (m st) as [st' [a|e']]; [auto|].
  intros [HE Hh]. destruct (decide (e' = e)); auto.
Qed.

Lemma keeps_run {A : Type} (I : EventListener -> Prop) (m : M A) st :
  keeps I m -> I st -> I (m st).1.
Proof.
  intros Hk HI. specialize (Hk st HI). unfold wp in Hk.
  destruct (m st) as [st' [a|e]]; exact Hk.
Qed.

Lemma keeps_bind {A B : Type} I (m : M A) (f : A -> M B) :
  keeps I m -> (forall a, keeps I (f a)) -> keeps I (m ≫= f).
Proof.
  intros Hm Hf st HI. apply wp_bind.
  eapply wp_mono; [apply Hm, HI| |auto]. intros a st' HI'. now apply Hf.
Qed.

Lemma keeps_ret {A : Type} I (a : A) : keeps I (mret a).
Proof. intros st HI. exact HI. Qed.

Lemma keeps_raise {A : Type} I (e : Exn) : keeps I (raise e : M A).
Proof. intros st HI. exact HI. Qed.

Lemma keeps_lift {A : Type} I (r : Res A) : keeps I (lift r).
Proof. intros st HI. apply wp_lift. now destruct r. Qed.

Lemma keeps_gets {A : Type} I (f : EventListener -> A) : keeps I (gets f).
Proof. intros st HI. exact HI. Qed.

Lemma keeps_modify I (f : EventListener -> EventListener) :
  (forall st, I st -> I (f st)) -> keeps I (modify f).
Proof. intros H st HI. apply wp_modify. auto. Qed.

Lemma keeps_ask {A : Type} I (a : Action) (answer : nat -> A) :
  (forall st, I st -> I (did a st)) -> keeps I (ask a answer).
Proof. intros H st HI. apply wp_ask. auto. Qed.

Lemma keeps_try {A : Type} I (m h : M A) (e : Exn) :
  keeps I m -> keeps I h -> keeps I (try_except m e h).
Proof.
  intros Hm Hh st HI. apply wp_try.
  eapply wp_mono; [apply Hm, HI|auto|]. intros st' HI'. split; auto.
Qed.

(** What is kept by every action but an assignment to the watermark is
    kept by the calls to the appliance. *)
Section ApplianceCalls.

Variable I : EventListener -> Prop.
Hypothesis I_did :
  forall a st, is_assignment a = false -> I st -> I (did a st).

Lemma emit_keeps a : is_assignment a = false -> keeps I (emit a).
Proof. intros Ha. apply keeps_modify. auto. Qed.

Lemma ask_keeps {A : Type} a (answer : nat -> A) :
  is_assignment a = false -> keeps I (ask a answer).
Proof. intros Ha. apply keeps_ask. auto. Qed.

Lemma call_callback_keeps w cb exp_event got_event :
  keeps I (call_callback w cb exp_event got_event).
Proof.
  unfold call_callback. apply keeps_bind; [now apply ask_keeps|].
  intros [e|]; [apply keeps_raise | apply keeps_ret].
Qed.

Lemma process_id_keeps w ty nm : keeps I (EventTool_process_id w ty nm).
Proof.
  unfold EventTool_process_id. destruct (is_Number nm); [apply keeps_ret|].
  destruct (target_rest_of ty); [|apply keeps_raise].
  apply keeps_bind; [now apply ask_keeps|].
  intros [|o0 ?]; [apply keeps_raise | apply keeps_lift].
Qed.

Lemma add_target_id_keeps w evt : keeps I (Event_add_target_id w evt).
Proof.
  unfold Event_add_target_id.
  destruct (_ && _); [|apply keeps_ret].
  apply keeps_try; [|apply keeps_ret].
  repeat (apply keeps_bind; [first [apply keeps_lift | apply process_id_keeps]|intros ?]).
  apply keeps_ret.
Qed.

Lemma get_next_portion_keeps w evt :
  keeps I (EventListener_get_next_portion w evt).
Proof.
  unfold EventListener_get_next_portion.
  apply keeps_bind; [apply add_target_id_keeps|]. intros evt'.
  destruct (negb _); [apply keeps_ret|].
  apply keeps_bind; [apply keeps_gets|]. intros last.
  apply keeps_bind; [now apply ask_keeps|]. intros l. apply keeps_ret.
Qed.

Lemma exp_event_at_keeps (j : nat) : keeps I (exp_event_at j).
Proof.
  unfold exp_event_at. apply keeps_bind; [apply keeps_gets|].
  intros l. destruct (l !! j); [apply keeps_ret | apply keeps_raise].
Qed.

(** With the assignments kept too, [set_last_record] keeps it. *)
Lemma set_last_record_keeps w evt :
  (forall v st, I st -> I (assign_last_processed_id v st).1) ->
  keeps I (EventListener_set_last_record w evt).
Proof.
  intros I_assign. unfold EventListener_set_last_record.
  destruct evt as [evt|].
  - apply keeps_bind; [apply keeps_lift|]. intros a.
    apply keeps_modify. intros st. apply I_assign.
  - apply keeps_try; [|apply keeps_ret].
    apply keeps_bind; [now apply ask_keeps|].
    intros [|e ?]; [apply keeps_raise|].
    apply keeps_bind; [apply keeps_lift|]. intros v.
    apply keeps_modify. intros st. apply I_assign.
Qed.

End ApplianceCalls.

(** ** An expectation with neither target_id nor target_name *)

Lemma get_next_portion_no_target (w : World) (evt : Event) (st : EventListener) :
  has_attr evt "target_id" = false ->
  has_attr evt "target_name" = false ->
  EventListener_get_next_portion w evt st = (st, Ok (evt, None)).
Proof.
  intros Hid Hname. unfold EventListener_get_next_portion.
  rewrite (run_bind_ok _ _ st st evt) by (apply add_target_id_skip; auto).
  now rewrite Hid.
Qed.

Section SkippedEntry.

Variable w : World.
Variable i : nat.
Variable exp : ExpEvent.
Hypothesis skipped : is_skipped exp.

Lemma update_other_keeps (j : nat) (f : ExpEvent -> ExpEvent) :
  j <> i -> keeps (entry_is i exp) (update_exp_event j f).
Proof.
  intros Hne st HI. unfold update_exp_event.
  apply wp_bind, wp_gets, wp_modify. unfold entry_is in *. simpl.
  now rewrite list_lookup_alter_ne.
Qed.

Lemma match_events_other_keeps (j : nat) (portion : list Entity) :
  j <> i -> keeps (entry_is i exp) (match_events w j portion).
Proof.
  intros Hne. induction portion as [|e portion IH]; [apply keeps_ret|].
  cbn [match_events].
  apply keeps_bind; [apply exp_event_at_keeps|]. intros exp_event.
  apply keeps_bind; [apply keeps_lift|]. intros r.
  apply keeps_bind.
  { destruct r; [|apply keeps_ret].
    apply keeps_bind; [|intros _; now apply update_other_keeps].
    destruct (callback exp_event); [|apply keeps_ret].
    apply call_callback_keeps. auto. }
  intros _. apply keeps_bind; [|intros _; exact IH].
  apply set_last_record_keeps; auto.
Qed.

Lemma process_exp_event_keeps (j : nat) :
  keeps (entry_is i exp) (process_exp_event w j).
Proof.
  unfold process_exp_event. destruct (decide (j = i)) as [->|Hne].
  - intros st HI. apply wp_bind. unfold exp_event_at.
    apply wp_bind, wp_gets. rewrite HI. apply wp_ret.
    destruct (_ && _) eqn:Hfirst; [exact HI|].
    destruct skipped as [Hs | [Hid Hname]]; [congruence|].
    apply wp_bind. unfold wp at 1.
    rewrite get_next_portion_no_target by assumption. cbn [fst snd].
    apply wp_bind. unfold update_exp_event.
    apply wp_bind, wp_gets, wp_modify, wp_ret.
    unfold entry_is in *. simpl. rewrite list_lookup_alter_eq, HI.
    now destruct exp.
  - apply keeps_bind; [apply exp_event_at_keeps|]. intros exp_event.
    destruct (_ && _); [apply keeps_ret|].
    apply keeps_bind; [apply get_next_portion_keeps; auto|]. intros r.
    apply keeps_bind; [now apply update_other_keeps|]. intros _.
    destruct (r.2) as [[|e portion]|]; try apply keeps_ret.
    apply keeps_bind; [now apply match_events_other_keeps|]. intros _.
    apply keeps_bind; [apply keeps_ask; auto|]. intros stop. apply keeps_ret.
Qed.

Lemma for_exp_events_keeps (j todo : nat) :
  keeps (entry_is i exp) (for_exp_events w j todo).
Proof.
  revert j. induction todo as [|todo IH]; intros j; [apply keeps_ret|].
  cbn [for_exp_events].
  apply keeps_bind; [apply process_exp_event_keeps|].
  intros [|]; [apply IH | apply keeps_ret].
Qed.

Lemma process_events_keeps (fuel : nat) :
  keeps (entry_is i exp) (EventListener_process_events w fuel).
Proof.
  induction fuel as [|fuel IH]; [apply keeps_ret|].
  cbn [EventListener_process_events].
  apply keeps_bind; [apply keeps_ask; auto|].
  intros [|]; [apply keeps_ret|].
  apply keeps_bind; [apply keeps_modify; auto|]. intros _.
  apply keeps_bind; [apply keeps_gets|]. intros n.
  apply keeps_bind; [apply for_exp_events_keeps|]. intros _. exact IH.
Qed.

End SkippedEntry.

(** C8. For an entry of [_events_to_listen] whose expected event has
    neither [target_id] nor [target_name]: [get_next_portion] returns
    nothing and leaves the listener as it was, so it asked the event source
    nothing; and however long [process_events] runs, the entry stays what
    it was, so its [matched_events] never grow. The skip is taken on the
    lack of a [target_id] alone: no [target_name] is waiting to resolve. *)
Theorem untargeted_never_matched (w : World) (st : EventListener) (i : nat)
    (exp : ExpEvent) (fuel : nat) :
  _events_to_listen st !! i = Some exp ->
  has_attr (event exp) "target_id" = false ->
  has_attr (event exp) "target_name" = false ->
  (forall st', EventListener_get_next_portion w (event exp) st'
               = (st', Ok (event exp, None)))
  /\ _events_to_listen (EventListener_process_events w fuel st).1 !! i
     = Some exp.
Proof.
  intros Hi Hid Hname. split.
  - intros st'. now apply get_next_portion_no_target.
  - apply (keeps_run (entry_is i exp)); [|exact Hi].
    apply process_events_keeps. right. auto.
Qed.

(** C8, at an expectation of any [vm_create] event, on a source that holds
    two such events: three passes of the loop leave the entry without a
    matched event. *)
Lemma untargeted_never_matched_witness :
  let w := source_of [vm_create_record 3 7; vm_create_record 5 7] in
  let st := listening_for any_vm_create false in
  matched_events <$>
    _events_to_listen (EventListener_process_events w 3 st).1 !! 0%nat
  = Some [].
Proof.
  intros w st.
  refine (eq_trans
            (f_equal (fmap matched_events)
               (proj2 (untargeted_never_matched w st 0
                         {| event := any_vm_create; callback := None;
                            matched_events := []; first_event := false |}
                         3 eq_refl _ _)))
            eq_refl);
    vm_compute; reflexivity.
Defined.

(** ** The watermark *)

Lemma watermark_writes_app (tr1 tr2 : list Action) :
  watermark_writes (tr1 ++ tr2) = watermark_writes tr1 ++ watermark_writes tr2.
Proof. apply omap_app. Qed.

Lemma watermark_writes_other (a : Action) :
  is_assignment a = false -> watermark_writes [a] = [].
Proof. now destruct a. Qed.

Lemma sorted_snoc (l : list Z) (j : Z) :
  Sorted Z.le l -> (forall c, last l = Some c -> c <= j) ->
  Sorted Z.le (l ++ [j]).
Proof.
  induction l as [|a l IH]; intros Hs Hl; [repeat constructor|].
  apply Sorted_inv in Hs as [Hs Hhd]. simpl. constructor.
  - apply IH; [exact Hs|]. intros c Hc. apply Hl.
    destruct l; [discriminate|]. now rewrite last_cons_cons.
  - destruct l as [|a' l]; simpl.
    + constructor. now apply Hl.
    + constructor. now apply HdRel_inv in Hhd.
Qed.

Lemma since_app (v0 : PyVal) (ids : list Z) (j : Z) :
  since v0 (ids ++ [j]) = since v0 ids ++ [j].
Proof. now destruct v0. Qed.

(** The last of the integers gone through is the watermark. *)
Lemma since_last (v0 : PyVal) (ids : list Z) (c : Z) :
  last (since v0 ids) = Some c ->
  match last ids with Some c' => VInt c' | None => v0 end = VInt c.
Proof.
  destruct ids as [|i ids].
  - destruct v0; simpl; try discriminate. now intros [= ->].
  - destruct (proj2 (last_is_Some (i :: ids))) as [x Hx]; [discriminate|].
    rewrite Hx. destruct v0; simpl since; try rewrite last_cons_cons;
      rewrite Hx; now intros [= ->].
Qed.

Lemma since_cons (v : PyVal) (j : Z) (js : list Z) :
  Sorted Z.le (since v (j :: js)) ->
  Sorted Z.le (since v [j]) /\ Sorted Z.le (since (VInt j) js).
Proof.
  intros Hs.
  assert (Sorted Z.le (j :: js)) as Hj.
  { destruct v; simpl in Hs; try exact Hs. now apply Sorted_inv in Hs. }
  split; [|exact Hj].
  destruct v; simpl in *; try (repeat constructor).
  apply Sorted_inv in Hs as [_ Hhd]. now apply HdRel_inv in Hhd.
Qed.

Lemma id_bound_add_filters (w : World) (evt : Event) (q : Q) (b : Z) :
  id_bound q = Some b -> id_bound (add_filters w evt q) = Some b.
Proof.
  unfold add_filters. generalize (used_filters w evt). intros l. revert q.
  induction l as [|k l IH]; intros q Hq; [exact Hq|].
  simpl. apply IH.
  destruct (event_attrs evt !! k) as [a|]; [|exact Hq].
  destruct (truthy (value a)); [|exact Hq]. simpl. now rewrite Hq.
Qed.

(** The observed event built from a record has the record's id. *)
Lemma build_from_entity_id (e : Entity) :
  getitem (event_attrs (Event_build_from_entity (Event_init []) e)) "id"
  = Ok (attr_of "id" (record_id e)).
Proof.
  unfold record_id, Event_build_from_entity.
  generalize (getattr_default e). intros g. vm_compute. reflexivity.
Qed.

Section Watermark.

Variable w : World.
Variable st0 : EventListener.
Hypothesis source_ascends : ascending_source w.

Lemma at_watermark_did v a st :
  is_assignment a = false ->
  at_watermark st0 v st -> at_watermark st0 v (did a st).
Proof.
  intros Ha (new & ids & Htr & Hw & Hs & Hv & Hc).
  exists (new ++ [a]), ids. repeat split; auto.
  - simpl. rewrite Htr. now rewrite <- app_assoc.
  - rewrite watermark_writes_app, watermark_writes_other, app_nil_r; auto.
Qed.

Lemma at_watermark_registry v l st :
  at_watermark st0 v st ->
  at_watermark st0 v (set_events_to_listen l st).1.
Proof. intros H. exact H. Qed.

Lemma at_watermark_assign v j st :
  Sorted Z.le (since v [j]) -> at_watermark st0 v st ->
  at_watermark st0 (VInt j) (assign_last_processed_id (VInt j) st).1.
Proof.
  intros Hj (new & ids & Htr & Hw & Hs & Hv & Hc).
  exists (new ++ [SetLastProcessed (VInt j)]), (ids ++ [j]).
  repeat split.
  - simpl. rewrite Htr. now rewrite <- app_assoc.
  - rewrite watermark_writes_app, Hw, fmap_app. reflexivity.
  - rewrite since_app. apply sorted_snoc; [exact Hs|].
    intros c Hlast. apply since_last in Hlast. rewrite <- Hv in Hlast.
    rewrite Hlast in Hj. simpl in Hj. apply Sorted_inv in Hj as [_ Hhd].
    now apply HdRel_inv in Hhd.
  - now rewrite last_snoc.
Qed.

Lemma update_keeps_watermark v j f :
  keeps (at_watermark st0 v) (update_exp_event j f).
Proof.
  unfold update_exp_event. apply keeps_bind; [apply keeps_gets|].
  intros l. apply keeps_modify. intros st.
  apply (at_watermark_registry v (alter f j l) st).
Qed.

(** The portion that [get_next_portion] returns ascends from the watermark. *)
Lemma get_next_portion_ascends v evt st :
  at_watermark st0 v st ->
  wp (EventListener_get_next_portion w evt)
     (fun r st' =>
        at_watermark st0 v st' /\
        forall portion, r.2 = Some portion ->
          exists js, record_id <$> portion = VInt <$> js /\
                     Sorted Z.le (since v js))
     (at_watermark st0 v) st.
Proof.
  intros HK. unfold EventListener_get_next_portion. apply wp_bind.
  eapply wp_mono;
    [apply (add_target_id_keeps _ (at_watermark_did v)), HK| |auto].
  clear st HK. intros evt' st HK. cbn beta.
  destruct (negb _).
  { apply wp_ret. split; [exact HK|]. intros portion Hp. discriminate. }
  apply wp_bind, wp_gets, wp_bind, wp_ask, wp_ret.
  split; [now apply at_watermark_did|].
  intros portion Hp. cbn [snd] in Hp. injection Hp as <-.
  destruct HK as (new & ids & Htr & Hw & Hs & Hv & Hc). rewrite Hc.
  destruct (source_ascends (length (trace st))
              (add_filters w evt' (Q_ "id" ">" v)))
    as (js & Hjs & Hsorted & Hab).
  exists js. split; [exact Hjs|].
  destruct v as [|b|c|s]; try exact Hsorted.
  simpl. constructor; [exact Hsorted|].
  specialize (Hab c (id_bound_add_filters w evt' (Q_ "id" ">" (VInt c)) c
                       eq_refl)).
  destruct js as [|j js]; constructor.
  apply Forall_cons in Hab as [Hj _]. lia.
Qed.

Lemma set_last_record_ascends v j e st :
  record_id e = VInt j -> Sorted Z.le (since v [j]) ->
  at_watermark st0 v st ->
  wp (EventListener_set_last_record w
        (Some (Event_build_from_entity (Event_init []) e)))
     (fun _ => at_watermark st0 (VInt j)) (at_watermark st0 v) st.
Proof.
  intros He Hle HK. unfold EventListener_set_last_record.
  apply wp_bind. rewrite build_from_entity_id. apply wp_lift.
  cbn [value attr_of]. rewrite He. apply wp_modify.
  exact (at_watermark_assign v j st Hle HK).
Qed.

Lemma match_events_ascends i portion : forall js v st,
  record_id <$> portion = VInt <$> js -> Sorted Z.le (since v js) ->
  at_watermark st0 v st ->
  wp (match_events w i portion) (fun _ => ascended st0) (ascended st0) st.
Proof.
  induction portion as [|e portion IH]; intros js v st Hids Hs HK.
  { apply wp_ret. now exists v. }
  destruct js as [|j js]; [discriminate|].
  injection Hids as He Hids.
  apply since_cons in Hs as [Hj Hs].
  assert (forall st', at_watermark st0 v st' -> ascended st0 st')
    as Hweak by (intros st' H; now exists v).
  cbn [match_events]. apply wp_bind.
  eapply wp_mono;
    [apply (exp_event_at_keeps (at_watermark st0 v) i st HK)| |exact Hweak].
  clear st HK. intros exp_event st HK. cbn beta.
  apply wp_bind, wp_lift.
  destruct (Event_matches _ _) as [r|]; [|now apply Hweak].
  apply wp_bind.
  assert (keeps (at_watermark st0 v)
            (if r
             then match callback exp_event with
                  | Some cb =>
                      call_callback w cb (event exp_event)
                        (Event_build_from_entity (Event_init []) e)
                  | None => mret tt
                  end;;
                  update_exp_event i
                    (append_matched (Event_build_from_entity (Event_init []) e))
             else mret tt)) as Hbranch.
  { destruct r; [|apply keeps_ret].
    apply keeps_bind; [|intros _; apply update_keeps_watermark].
    destruct (callback exp_event); [|apply keeps_ret].
    apply call_callback_keeps, at_watermark_did. }
  eapply wp_mono; [apply Hbranch, HK| |exact Hweak].
  clear st HK. intros [] st HK. cbn beta in *.
  apply wp_bind.
  eapply wp_mono;
    [apply (set_last_record_ascends v j e st He Hj HK)| |exact Hweak].
  clear st HK. intros [] st HK. cbn beta in *.
  now apply (IH js (VInt j)).
Qed.

Lemma process_exp_event_ascends i :
  keeps (ascended st0) (process_exp_event w i).
Proof.
  intros st [v HK].
  assert (forall st', at_watermark st0 v st' -> ascended st0 st')
    as Hweak by (intros st' H; now exists v).
  unfold process_exp_event. apply wp_bind.
  eapply wp_mono;
    [apply (exp_event_at_keeps (at_watermark st0 v) i st HK)| |exact Hweak].
  clear st HK. intros exp_event st HK. cbn beta.
  destruct (_ && _); [now apply wp_ret, Hweak|].
  apply wp_bind.
  eapply wp_mono; [apply get_next_portion_ascends, HK| |exact Hweak].
  clear st HK. intros r st [HK Hr]. cbn beta.
  apply wp_bind.
  eapply wp_mono; [apply update_keeps_watermark, HK| |exact Hweak].
  clear st HK. intros [] st HK. cbn beta in *.
  destruct (r.2) as [[|e portion]|]; try (now apply wp_ret, Hweak).
  destruct (Hr (e :: portion) eq_refl) as (js & Hjs & Hsorted).
  apply wp_bind.
  eapply wp_mono; [apply (match_events_ascends i _ js v st Hjs Hsorted HK)| |auto].
  clear st HK. intros [] st [v' HK]. cbn beta in *.
  apply wp_bind, wp_ask, wp_ret. exists v'. now apply at_watermark_did.
Qed.

Lemma ascended_did a st :
  is_assignment a = false -> ascended st0 st -> ascended st0 (did a st).
Proof. intros Ha [v HK]. exists v. now apply at_watermark_did. Qed.

Lemma for_exp_events_ascends i todo :
  keeps (ascended st0) (for_exp_events w i todo).
Proof.
  revert i. induction todo as [|todo IH]; intros i; [apply keeps_ret|].
  cbn [for_exp_events].
  apply keeps_bind; [apply process_exp_event_ascends|].
  intros [|]; [apply IH | apply keeps_ret].
Qed.

Lemma process_events_ascends fuel :
  keeps (ascended st0) (EventListener_process_events w fuel).
Proof.
  induction fuel as [|fuel IH]; [apply keeps_ret|].
  cbn [EventListener_process_events].
  apply keeps_bind; [apply ask_keeps; [apply ascended_did|reflexivity]|].
  intros [|]; [apply keeps_ret|].
  apply keeps_bind; [apply emit_keeps; [apply ascended_did|reflexivity]|].
  intros _. apply keeps_bind; [apply keeps_gets|]. intros n.
  apply keeps_bind; [apply for_exp_events_ascends|]. intros _. exact IH.
Qed.

End Watermark.

(** C2, as amended. On an event source that answers every filter with
    integer ids in ascending order, all above the filter's bound on the id
    when that is an integer: from any state of the listener, the watermark
    unset (None) as after a start on an empty stream or set, and whatever
    number of passes [process_events] makes, with whatever outcome, the
    values it assigns to the watermark, in the order it assigns them, are
    integers that never decrease; when the watermark was an integer [b0]
    at the start they are never below [b0]; and the watermark ends as the
    last of them, or as it was when there is none. *)
Theorem watermark_never_decreases (w : World) (fuel : nat)
    (st : EventListener) :
  ascending_source w ->
  let st' := (EventListener_process_events w fuel st).1 in
  exists new ids,
    trace st' = trace st ++ new /\
    watermark_writes new = VInt <$> ids /\
    Sorted Z.le ids /\
    (forall b0, _last_processed_id st = VInt b0 -> Sorted Z.le (b0 :: ids)) /\
    _last_processed_id st'
    = match last ids with
      | Some c => VInt c
      | None => _last_processed_id st
      end.
Proof.
  intros Hw st'.
  assert (ascended st st') as (v & new & ids & Htr & Hws & Hs & Hv & Hc).
  { apply keeps_run; [now apply process_events_ascends|].
    exists (_last_processed_id st), [], []. repeat split.
    - now rewrite app_nil_r.
    - destruct (_last_processed_id st); repeat constructor. }
  exists new, ids. repeat split; auto.
  - destruct (_last_processed_id st); simpl in Hs; try exact Hs.
    now apply Sorted_inv in Hs.
  - intros b0 Hb0. now rewrite Hb0 in Hs.
  - now rewrite Hc.
Qed.

Lemma filter_above_ascending (b : Z) (records : list Entity) : forall ids,
  record_id <$> records = VInt <$> ids -> StronglySorted Z.le ids ->
  exists js, record_id <$> List.filter (above b) records = VInt <$> js /\
             Forall (fun j => b < j) js /\ StronglySorted Z.le js /\
             Forall (fun j => j ∈ ids) js.
Proof.
  induction records as [|e records IH]; intros ids Hids Hs.
  { exists []. repeat split; constructor. }
  destruct ids as [|i ids]; [discriminate|]. injection Hids as He Hids.
  apply StronglySorted_inv in Hs as [Hs Hall].
  destruct (IH ids Hids Hs) as (js & Hjs & Hab & Hss & Hin).
  assert (Forall (fun j => j ∈ i :: ids) js) as Hin'.
  { eapply Forall_impl; [exact Hin|]. intros j Hj. now apply elem_of_cons; right. }
  simpl. unfold above at 1. rewrite He.
  destruct (b <? i) eqn:Hbi.
  - exists (i :: js). repeat split.
    + simpl. rewrite He. f_equal. exact Hjs.
    + constructor; [now apply Z.ltb_lt|exact Hab].
    + constructor; [exact Hss|].
      rewrite Forall_forall in Hin, Hall |- *. intros j Hj.
      apply Hall, Hin, Hj.
    + constructor; [apply elem_of_cons; now left|exact Hin'].
  - exists js. repeat split; assumption.
Qed.

(** A source that holds records with ascending integer ids is an
    [ascending_source], whether it answers a filter without a bound with
    nothing or with everything. *)
Lemma source_of_ascending (records : list Entity) (ids : list Z) :
  record_id <$> records = VInt <$> ids -> Sorted Z.le ids ->
  ascending_source (source_of records) /\
  ascending_source (open_source records).
Proof.
  intros Hids Hs.
  assert (forall b, exists js,
            record_id <$> List.filter (above b) records = VInt <$> js /\
            Sorted Z.le js /\ Forall (fun j => b < j) js) as Hfilter.
  { intros b.
    destruct (filter_above_ascending b records ids Hids)
      as (js & Hjs & Hab & Hss & _).
    { apply Sorted_StronglySorted; [|exact Hs]. intros x y z. apply Z.le_trans. }
    exists js. repeat split; auto using StronglySorted_Sorted. }
  split; intros t q; simpl; destruct (id_bound q) as [b|].
  - destruct (Hfilter b) as (js & Hjs & Hsorted & Hab).
    exists js. repeat split; auto. now intros b' [= <-].
  - exists []. repeat split; [constructor|discriminate].
  - destruct (Hfilter b) as (js & Hjs & Hsorted & Hab).
    exists js. repeat split; auto. now intros b' [= <-].
  - exists ids. repeat split; auto. discriminate.
Qed.

(** C2 as amended, on a source that holds the events 3 and 5 in that
    order, for a listener started before any event existed (the watermark
    is None), for two passes of the loop. *)
Lemma watermark_never_decreases_witness :
  let w := open_source [vm_create_record 3 7; vm_create_record 5 7] in
  let st := {| _events_to_listen := [entry_for None false vm_create_on_7];
               _last_processed_id := VNone;
               trace := [] |} in
  let st' := (EventListener_process_events w 2 st).1 in
  ascending_source w /\
  exists new ids,
    trace st' = trace st ++ new /\
    watermark_writes new = VInt <$> ids /\
    Sorted Z.le ids /\
    (forall b0, _last_processed_id st = VInt b0 -> Sorted Z.le (b0 :: ids)) /\
    _last_processed_id st'
    = match last ids with
      | Some c => VInt c
      | None => _last_processed_id st
      end.
Proof.
  intros w st st'.
  assert (ascending_source w) as Hw.
  { apply (source_of_ascending _ [3; 5]); [reflexivity|].
    repeat constructor. discriminate. }
  split; [exact Hw|].
  exact (watermark_never_decreases w 2 st Hw).
Defined.

(** C2 as the specification states it fails. A source may honour the bound
    on the id and still answer in another order: on one that holds the
    events 5 and 3 in that order, the listener with the watermark 2 assigns
    5 and then 3. *)
Lemma watermark_decreases :
  ~ (forall (w : World) (fuel : nat) (st : EventListener) (b0 : Z),
       _last_processed_id st = VInt b0 ->
       exists new ids,
         trace (EventListener_process_events w fuel st).1 = trace st ++ new /\
         watermark_writes new = VInt <$> ids /\
         Sorted Z.le (b0 :: ids)).
Proof.
  intros H.
  destruct (H (source_of [vm_create_record 5 7; vm_create_record 3 7]) 1%nat
              (listening_for vm_create_on_7 false) 2 eq_refl)
    as (new & ids & Htr & Hw & Hs).
  vm_compute in Htr. subst new. vm_compute in Hw.
  destruct ids as [|i1 [|i2 [|i3 ids]]]; try discriminate.
  injection Hw as <- <-.
  apply Sorted_inv in Hs as [Hs _]. apply Sorted_inv in Hs as [_ Hhd].
  apply HdRel_inv in Hhd. lia.
Qed.

(** ** first_event *)

(** C1, where the code breaks it. A [first_event] entry expects a
    [vm_create] event on the target 7; the source answers the first query
    with two such events, 3 and 5. The guard of line 283 is passed once,
    before the query, and the loop of lines 292-298 appends both: after one
    pass of [process_events] the entry has two matched events. *)
Theorem first_event_entry_matched_twice :
  let w := source_of [vm_create_record 3 7; vm_create_record 5 7] in
  let st := listening_for vm_create_on_7 true in
  (fun e => (first_event e, length (matched_events e))) <$>
    _events_to_listen (EventListener_process_events w 1 st).1
  = [(true, 2%nat)].
Proof. vm_compute. reflexivity. Qed.

(** X1. What the guard of line 283 does give: a [first_event] entry that has a
    matched event is never changed again, however long the loop runs. *)
Theorem first_event_entry_is_final (w : World) (st : EventListener) (i : nat)
    (exp : ExpEvent) (fuel : nat) :
  _events_to_listen st !! i = Some exp ->
  first_event exp = true ->
  matched_events exp <> [] ->
  _events_to_listen (EventListener_process_events w fuel st).1 !! i = Some exp.
Proof.
  intros Hi Hfirst Hmatched.
  apply (keeps_run (entry_is i exp)); [|exact Hi].
  apply process_events_keeps. left. rewrite Hfirst.
  destruct (matched_events exp); [congruence|reflexivity].
Qed.

Lemma first_event_entry_is_final_witness :
  let w := source_of [vm_create_record 3 7; vm_create_record 5 7] in
  let exp := {| event := vm_create_on_7; callback := None;
                matched_events := [vm_create_on_7]; first_event := true |} in
  let st := {| _events_to_listen := [exp]; _last_processed_id := VInt 2;
               trace := [] |} in
  _events_to_listen (EventListener_process_events w 3 st).1 !! 0%nat = Some exp.
Proof.
  intros w exp st.
  apply (first_event_entry_is_final w st 0 exp 3); [reflexivity|reflexivity|].
  discriminate.
Defined.

(** * More of the code *)

(** ** EventAttr.__init__ *)

(** X2. [EventAttr(...)] needs exactly one keyword argument besides
    [attr_type] and [cmp_func]: none is an IndexError (from indexing the
    empty items), two or more a ValueError; with one, the attribute has
    that name and value, the given compare function, and the given type or
    else the type of the value. *)
Theorem EventAttr_init_cases (attr_type : option PyType)
    (cmp : option (PyVal -> PyVal -> bool)) (attrs : list (string * PyVal)) :
  match attrs with
  | [] => EventAttr_init attr_type cmp attrs = Raise IndexError
  | [(k, v)] =>
      EventAttr_init attr_type cmp attrs
      = Ok {| name := k; value := v;
              type := match attr_type with Some t => t | None => type_of v end;
              cmp_func := cmp |}
  | _ :: _ :: _ => EventAttr_init attr_type cmp attrs = Raise ValueError
  end.
Proof.
  destruct attrs as [|[k v] [|kv attrs]]; reflexivity.
Qed.

(** ** Event.add_attrs *)

Lemma add_attr_recognised (e : Event) (a : EventAttr) :
  add_attr e a =
  if recognised (name a)
  then {| event_attrs := <[name a := a]> (event_attrs e) |}
  else e.
Proof.
  unfold add_attr, recognised.
  destruct (String.eqb (name a) "target_name"); [reflexivity|].
  now destruct (bool_decide _).
Qed.

Lemma add_attr_lookup (e : Event) (a : EventAttr) (k : string) :
  event_attrs (add_attr e a) !! k =
  if recognised (name a) && bool_decide (name a = k) then Some a
  else event_attrs e !! k.
Proof.
  rewrite add_attr_recognised. destruct (recognised (name a)); [|reflexivity].
  simpl. case_bool_decide as Hk.
  - subst k. apply lookup_insert_eq.
  - now apply lookup_insert_ne.
Qed.

Lemma add_attrs_cons (e : Event) (a : EventAttr) (attrs : list EventAttr) :
  Event_add_attrs e (a :: attrs) = Event_add_attrs (add_attr e a) attrs.
Proof. reflexivity. Qed.

(** X3. After [add_attrs], the attribute under a name is the last of the
    added attributes that has this name, when the name is recognised and
    there is one; otherwise it is what the event had before. So a later
    attribute overwrites an earlier one and an unrecognised one changes
    nothing. *)
Theorem add_attrs_last_wins (e : Event) (attrs : list EventAttr) (k : string) :
  event_attrs (Event_add_attrs e attrs) !! k =
  match last (List.filter
                (fun a => recognised (name a) && bool_decide (name a = k))
                attrs) with
  | Some a => Some a
  | None => event_attrs e !! k
  end.
Proof.
  revert e. induction attrs as [|a attrs IH]; intros e; [reflexivity|].
  rewrite add_attrs_cons, IH, add_attr_lookup. cbn [List.filter].
  destruct (recognised (name a) && bool_decide (name a = k)); [|reflexivity].
  destruct (List.filter _ attrs) as [|a' l] eqn:Hl; [reflexivity|].
  rewrite last_cons_cons.
  destruct (proj2 (last_is_Some (a' :: l))) as [x ->]; [discriminate|].
  reflexivity.
Qed.

(** ** Well-formed events *)

Lemma add_attr_wf (e : Event) (a : EventAttr) :
  wf_event e -> wf_event (add_attr e a).
Proof.
  intros Hwf k b. rewrite add_attr_lookup.
  destruct (recognised (name a)) eqn:Hr; [|apply Hwf]. simpl.
  case_bool_decide as Hk; [|apply Hwf].
  intros [= <-]. subst k. auto.
Qed.

Lemma add_attrs_wf (e : Event) (attrs : list EventAttr) :
  wf_event e -> wf_event (Event_add_attrs e attrs).
Proof.
  revert e. induction attrs as [|a attrs IH]; intros e Hwf; [exact Hwf|].
  rewrite add_attrs_cons. apply IH. now apply add_attr_wf.
Qed.

Lemma empty_event_wf : wf_event {| event_attrs := ∅ |}.
Proof. intros k a Hk. simpl in Hk. now rewrite lookup_empty in Hk. Qed.

Lemma Event_init_wf (args : list PyObject) : wf_event (Event_init args).
Proof.
  unfold Event_init. generalize empty_event_wf.
  generalize ({| event_attrs := ∅ |}). induction args as [|arg args IH];
    intros e Hwf; [exact Hwf|].
  simpl. apply IH. destruct arg; auto. now apply add_attr_wf.
Qed.

Lemma build_from_entity_wf (e : Event) (ent : Entity) :
  wf_event e -> wf_event (Event_build_from_entity e ent).
Proof.
  unfold Event_build_from_entity. generalize DEFAULT_ATTRS. intros keys.
  revert e. induction keys as [|key keys IH]; intros e Hwf; [exact Hwf|].
  simpl. apply IH. now apply add_attr_wf.
Qed.

Lemma new_event_wf (attrs : list AttrArgs) (kwattrs : list (string * PyVal))
    (e : Event) :
  EventListener_new_event attrs kwattrs = Ok e -> wf_event e.
Proof.
  unfold EventListener_new_event.
  assert (forall (A : Type) (f : A -> Res EventAttr) (l : list A) r,
            (forall e0, r = Ok e0 -> wf_event e0) ->
            forall e1,
            foldl (fun r x => e ← r; a ← f x; mret (Event_add_attrs e [a])) r l
            = Ok e1 -> wf_event e1) as Hfold.
  { intros A f l. induction l as [|x l IH]; intros r Hr e1; [apply Hr|].
    simpl. apply IH. intros e0.
    destruct r as [e'|]; [|discriminate]. simpl.
    destruct (f x) as [a|]; [|discriminate]. simpl. intros [= <-].
    apply add_attr_wf. now apply Hr. }
  destruct (foldl _ (Ok (Event_init [])) kwattrs) as [e1|] eqn:H1;
    [|discriminate].
  simpl. apply Hfold. intros e0 [= <-].
  revert H1. apply Hfold. intros e0 [= <-]. apply Event_init_wf.
Qed.

Lemma wp_trivial {A : Type} (m : M A) (st : EventListener) :
  wp m (fun _ _ => True) (fun _ => True) st.
Proof. unfold wp. now destruct (m st) as [st' [a|e]]. Qed.

Lemma wp_result {A : Type} (m : M A) (Q : A -> EventListener -> Prop)
    (E : EventListener -> Prop) (st : EventListener) (a : A) :
  wp m Q E st -> (m st).2 = Ok a -> Q a (m st).1.
Proof.
  unfold wp. destruct (m st) as [st' [a'|e]]; simpl; [|discriminate].
  now intros HQ [= <-].
Qed.

Lemma add_target_id_wf (w : World) (e e' : Event) (st : EventListener) :
  wf_event e -> (Event_add_target_id w e st).2 = Ok e' -> wf_event e'.
Proof.
  intros Hwf.
  apply (wp_result _ (fun e' _ => wf_event e') (fun _ => True)).
  unfold Event_add_target_id.
  destruct (_ && _); [|now apply wp_ret].
  apply wp_try, wp_bind, wp_lift.
  destruct (getitem _ "target_type") as [ty|]; [|now split].
  apply wp_bind, wp_lift.
  destruct (getitem _ "target_name") as [nm|]; [|now split].
  apply wp_bind.
  eapply wp_mono; [apply wp_trivial| |now split].
  intros id st' _. apply wp_bind, wp_lift. cbn [EventAttr_init length Nat.ltb Nat.leb].
  apply wp_ret. intros k a. simpl.
  destruct (decide (k = "target_id")) as [->|Hne].
  - rewrite lookup_insert_eq. now intros [= <-].
  - rewrite lookup_insert_ne by congruence. apply Hwf.
Qed.

(** X4. Every event the code builds is well formed: each attribute is
    stored under its own name, and the name is [target_name] or a default
    attribute. [Event(...)] gives such an event, [add_attrs],
    [build_from_entity] and [add_target_id] keep it so, and so is what
    [new_event] returns. *)
Theorem events_stay_well_formed :
  (forall args, wf_event (Event_init args))
  /\ (forall e attrs, wf_event e -> wf_event (Event_add_attrs e attrs))
  /\ (forall e ent, wf_event e -> wf_event (Event_build_from_entity e ent))
  /\ (forall attrs kwattrs e,
        EventListener_new_event attrs kwattrs = Ok e -> wf_event e)
  /\ (forall w e st e',
        wf_event e -> (Event_add_target_id w e st).2 = Ok e' -> wf_event e').
Proof.
  split; [|split; [|split; [|split]]].
  - apply Event_init_wf.
  - apply add_attrs_wf.
  - apply build_from_entity_wf.
  - apply new_event_wf.
  - intros w e st e'. apply add_target_id_wf.
Qed.

(** ** Event.build_from_entity *)

Lemma build_keys_lookup (g : string -> PyVal) (keys : list string) :
  Forall (fun key => recognised key = true) keys ->
  forall (e : Event) (k : string),
  event_attrs
    (foldl (fun e key => Event_add_attrs e [attr_of key (g key)]) e keys) !! k
  = if bool_decide (k ∈ keys) then Some (attr_of k (g k))
    else event_attrs e !! k.
Proof.
  induction keys as [|key keys IH]; intros Hkeys e k; [reflexivity|].
  apply Forall_cons in Hkeys as [Hkey Hkeys]. cbn [foldl].
  rewrite (IH Hkeys). change (Event_add_attrs e [?a]) with (add_attr e a).
  rewrite add_attr_lookup. cbn [name attr_of]. rewrite Hkey. cbn [andb].
  destruct (decide (k ∈ keys)) as [Hin|Hnin].
  - rewrite !bool_decide_eq_true_2; [reflexivity| |exact Hin].
    now apply elem_of_cons; right.
  - rewrite (bool_decide_eq_false_2 _ Hnin).
    destruct (decide (key = k)) as [->|Hne].
    + rewrite !bool_decide_eq_true_2; [reflexivity| |reflexivity].
      apply elem_of_cons; now left.
    + rewrite !bool_decide_eq_false_2; [reflexivity| |exact Hne].
      intros [->|Hin]%elem_of_cons; [now apply Hne|now apply Hnin].
Qed.

(** X5. [build_from_entity] sets every default attribute from the record,
    None for a field the record does not have, over whatever the event had
    under that name; anything else the event had ([target_name]) stays.
    Built on a new event, the observed event has exactly the nine default
    attributes and never a [target_name]. *)
Theorem build_from_entity_attrs (self : Event) (ent : Entity) (k : string) :
  event_attrs (Event_build_from_entity self ent) !! k
  = if bool_decide (k ∈ DEFAULT_ATTRS)
    then Some (attr_of k (default VNone (ent !! k)))
    else event_attrs self !! k.
Proof.
  unfold Event_build_from_entity. apply build_keys_lookup.
  repeat constructor.
Qed.

(** ** Event.matches on well-formed events *)

Lemma match_agree (sa sb : EventAttr) :
  name sa = name sb ->
  EventAttr_match sa (AnEventAttr sb) = Ok (attrs_agree sa sb).
Proof.
  intros Hn. rewrite (match_same_name sa sb Hn). unfold attrs_agree.
  destruct (_ || _); [reflexivity|]. now destruct (cmp_func sa).
Qed.

Lemma matches_loop_agree (a b : Event) (l : list string) :
  wf_event a -> wf_event b ->
  Forall (fun k => k ∈ dom (event_attrs a) ∩ dom (event_attrs b)) l ->
  matches_loop a b l = Ok (forallb (agree_on a b) l).
Proof.
  intros Ha Hb. induction l as [|k l IH]; intros Hl; [reflexivity|].
  apply Forall_cons in Hl as [Hk Hl]. rewrite matches_loop_cons.
  apply elem_of_intersection in Hk as [[sa Hsa]%elem_of_dom [sb Hsb]%elem_of_dom].
  cbn [forallb]. unfold agree_on at 1. rewrite Hsa, Hsb.
  rewrite match_agree.
  - destruct (attrs_agree sa sb); [now apply IH|reflexivity].
  - destruct (Ha k sa Hsa) as [-> _]. now destruct (Hb k sb Hsb) as [-> _].
Qed.

Lemma forallb_Permutation {A : Type} (f : A -> bool) (l1 l2 : list A) :
  l1 ≡ₚ l2 -> forallb f l1 = forallb f l2.
Proof.
  induction 1 as [|x l1 l2 _ IH|x y l|l1 l2 l3 _ IH1 _ IH2]; simpl.
  - reflexivity.
  - now rewrite IH.
  - now destruct (f x), (f y).
  - now rewrite IH1.
Qed.

(** X6. On well-formed events [matches] never raises: it returns a
    boolean, and the same one in whatever order the common attribute names
    are walked. *)
Theorem matches_total_any_order (a b : Event) (l : list string) :
  wf_event a -> wf_event b ->
  l ≡ₚ elements (dom (event_attrs a) ∩ dom (event_attrs b)) ->
  exists r, matches_loop a b l = Ok r /\ Event_matches a b = Ok r.
Proof.
  intros Ha Hb Hl. exists (forallb (agree_on a b) l). split.
  - apply matches_loop_agree; auto. apply Forall_forall. intros k Hk.
    rewrite Hl in Hk. now apply elem_of_elements in Hk.
  - unfold Event_matches. rewrite (forallb_Permutation _ _ _ Hl).
    apply matches_loop_agree; auto. apply Forall_forall. intros k Hk.
    now apply elem_of_elements in Hk.
Qed.

(** X6, at the expectation of a [vm_create] on the target 7 and the
    observed event 3 on that target, the common names walked from
    [target_id]. *)
Lemma matches_total_any_order_witness :
  exists r,
    matches_loop vm_create_on_7
      (Event_build_from_entity (Event_init []) (vm_create_record 3 7))
      ["target_id"; "event_type"] = Ok r
    /\ Event_matches vm_create_on_7
         (Event_build_from_entity (Event_init []) (vm_create_record 3 7))
       = Ok r.
Proof.
  apply (matches_total_any_order vm_create_on_7
           (Event_build_from_entity (Event_init []) (vm_create_record 3 7))
           ["target_id"; "event_type"]).
  - apply Event_init_wf.
  - apply build_from_entity_wf, Event_init_wf.
  - vm_compute. apply perm_swap.
Defined.

(** ** EventListener.new_event *)

Lemma new_event_kwattrs_run (kwattrs : list (string * PyVal)) :
  Forall (fun kv => is_parameter kv.1 = false) kwattrs ->
  EventListener_new_event [] kwattrs
  = Ok (Event_add_attrs (Event_init [])
          (map (fun kv => attr_of kv.1 kv.2) kwattrs)).
Proof.
  unfold EventListener_new_event. generalize (Event_init []).
  induction kwattrs as [|[k v] kw IH]; intros e Hkw; [reflexivity|].
  apply Forall_cons in Hkw as [Hk Hkw].
  cbn [foldl map]. unfold EventAttr_of_keyword at 2. rewrite Hk.
  rewrite add_attrs_cons. now apply IH.
Qed.

Lemma new_event_kwattrs_raise (kwattrs : list (string * PyVal)) :
  Exists (fun kv => is_parameter kv.1 = true) kwattrs ->
  EventListener_new_event [] kwattrs = Raise IndexError.
Proof.
  unfold EventListener_new_event.
  assert (forall (l : list (string * PyVal)) ex,
            foldl (fun r kv => e ← r; a ← EventAttr_of_keyword kv;
                               mret (Event_add_attrs e [a]))
                  (Raise ex) l = Raise ex) as Hraise
    by (induction l as [|kv l IHl]; intros ex; [reflexivity|apply IHl]).
  generalize (Event_init []).
  induction kwattrs as [|[k v] kw IH]; intros e Hkw; [inversion Hkw|].
  cbn [foldl]. unfold EventAttr_of_keyword at 2. cbn [fst].
  destruct (is_parameter k) eqn:Hk.
  - cbn [mbind Res_bind EventAttr_init length Nat.ltb Nat.leb].
    now rewrite Hraise.
  - apply Exists_cons in Hkw as [Hkw|Hkw]; [cbn [fst] in Hkw; congruence|].
    now apply IH.
Qed.

Lemma add_attrs_of_pairs (kw : list (string * PyVal)) :
  NoDup kw.*1 -> forall (e : Event) (k : string),
  event_attrs (Event_add_attrs e (map (fun kv => attr_of kv.1 kv.2) kw)) !! k
  = match (if recognised k then (list_to_map kw : gmap string PyVal) !! k
           else None) with
    | Some v => Some (attr_of k v)
    | None => event_attrs e !! k
    end.
Proof.
  induction kw as [|[k0 v0] kw IH]; intros Hnd e k.
  { simpl. rewrite lookup_empty. now destruct (recognised k). }
  apply NoDup_cons in Hnd as [Hk0 Hnd]. cbn [map fst snd].
  rewrite add_attrs_cons, (IH Hnd), add_attr_lookup. cbn [name attr_of].
  cbn [list_to_map foldr]. cbn [fst snd].
  destruct (decide (k0 = k)) as [->|Hne].
  - rewrite lookup_insert_eq.
    rewrite (not_elem_of_list_to_map_1 kw k Hk0).
    rewrite bool_decide_eq_true_2 by reflexivity.
    now destruct (recognised k).
  - rewrite lookup_insert_ne by exact Hne.
    rewrite (bool_decide_eq_false_2 _ Hne), andb_false_r. reflexivity.
Qed.

(** X7. [new_event] with keyword arguments only, none of them named
    [attr_type] or [cmp_func], returns an event that holds exactly the
    recognised pairs: under a recognised name the attribute with the value
    given for it, with no compare function, and nothing under any other
    name. A keyword named [attr_type] or [cmp_func] makes it raise
    IndexError. *)
Theorem new_event_holds_recognised_pairs (kwattrs : list (string * PyVal)) :
  NoDup kwattrs.*1 ->
  (Forall (fun kv => is_parameter kv.1 = false) kwattrs ->
   exists e,
     EventListener_new_event [] kwattrs = Ok e /\
     forall k,
       event_attrs e !! k
       = if recognised k
         then attr_of k <$> (list_to_map kwattrs : gmap string PyVal) !! k
         else None)
  /\ (Exists (fun kv => is_parameter kv.1 = true) kwattrs ->
      EventListener_new_event [] kwattrs = Raise IndexError).
Proof.
  intros Hnd. split; [|apply new_event_kwattrs_raise].
  intros Hkw. eexists. split; [now apply new_event_kwattrs_run|]. intros k.
  rewrite (add_attrs_of_pairs kwattrs Hnd).
  change (event_attrs (Event_init [])) with (∅ : gmap string EventAttr).
  rewrite lookup_empty.
  destruct (recognised k); [|reflexivity].
  now destruct (list_to_map kwattrs !! k).
Qed.

(** X7, at [new_event(event_type='vm_create', colour='red')] read under
    [event_type]. *)
Lemma new_event_holds_recognised_pairs_witness :
  (exists e,
     EventListener_new_event []
       [("event_type", VStr "vm_create"); ("colour", VStr "red")] = Ok e
     /\ forall k,
         event_attrs e !! k
         = if recognised k
           then attr_of k <$>
                  (list_to_map [("event_type", VStr "vm_create");
                                ("colour", VStr "red")]
                   : gmap string PyVal) !! k
           else None)
  /\ EventListener_new_event [] [("cmp_func", VNone)] = Raise IndexError.
Proof.
  split.
  - refine (proj1 (new_event_holds_recognised_pairs
                     [("event_type", VStr "vm_create"); ("colour", VStr "red")]
                     _) _).
    + apply NoDup_cons_2; [|apply NoDup_singleton].
      intros Hin. apply list_elem_of_singleton in Hin. discriminate.
    + repeat constructor.
  - refine (proj2 (new_event_holds_recognised_pairs [("cmp_func", VNone)] _) _).
    + apply NoDup_singleton.
    + now constructor.
Defined.

(** ** EventListener.listen_to *)

Lemma listening_to_same (st : EventListener) :
  listening_to (_events_to_listen st) st = st.
Proof. now destruct st. Qed.

Lemma listen_to_run (evts : list PyObject) (cb : option nat) (first : bool)
    (st : EventListener) :
  EventListener_listen_to evts cb first st
  = (listening_to (_events_to_listen st ++
                   map (entry_for cb first) (events_before_other evts)) st,
     if all_events evts then Ok tt else Raise ValueError).
Proof.
  revert st. induction evts as [|o evts IH]; intros st.
  { simpl. now rewrite app_nil_r, listening_to_same. }
  destruct o as [a|evt|v];
    try (simpl; now rewrite app_nil_r, listening_to_same).
  cbn [EventListener_listen_to]. rewrite run_bind. cbn [gets].
  rewrite run_bind. unfold set_events_to_listen at 1. cbn [modify].
  rewrite IH. cbn [events_before_other map all_events forallb andb].
  unfold listening_to. simpl. now rewrite <- app_assoc.
Qed.

(** X8. [listen_to] appends one entry for each of its arguments, in order,
    up to the first that is not an [Event]: each entry has the given
    callback and [first_event] flag and no matched event, and the entries
    already there stay as they are. When an argument is not an [Event] it
    raises ValueError, and the events before that argument stay
    registered. *)
Theorem listen_to_registers (evts : list PyObject) (cb : option nat)
    (first : bool) (st : EventListener) :
  EventListener_listen_to evts cb first st
  = (listening_to (_events_to_listen st ++
                   map (entry_for cb first) (events_before_other evts)) st,
     if all_events evts then Ok tt else Raise ValueError).
Proof. apply listen_to_run. Qed.

Lemma py_all_app (l1 l2 : list nat) :
  py_all (l1 ++ l2) = py_all l1 && py_all l2.
Proof. unfold py_all. apply forallb_app. Qed.

(** X9. After [listen_to] has registered at least one event,
    [check_expected_events] is false, whatever the entries before had
    matched: a new expectation has no matched event. *)
Theorem check_false_after_listen_to (evts : list PyObject) (cb : option nat)
    (first : bool) (st : EventListener) :
  events_before_other evts <> [] ->
  EventListener_check_expected_events
    (EventListener_listen_to evts cb first st).1 = false.
Proof.
  intros Hne. rewrite listen_to_run.
  unfold EventListener_check_expected_events, EventListener_got_events.
  cbn [fst listening_to set_events_to_listen modify _events_to_listen].
  rewrite map_app, py_all_app.
  destruct (events_before_other evts) as [|evt l]; [congruence|].
  simpl. apply andb_false_r.
Qed.

Lemma check_false_after_listen_to_witness :
  EventListener_check_expected_events
    (EventListener_listen_to [AnEvent vm_create_on_7] None false
       EventListener_init).1 = false.
Proof.
  apply (check_false_after_listen_to [AnEvent vm_create_on_7] None false
           EventListener_init).
  discriminate.
Defined.

(** ** EventListener.__call__ *)

(** X10. Calling the listener builds the event with [new_event] and
    registers it alone, with no callback, and with [first_event] true
    unless the keyword says otherwise; when [new_event] raises, nothing is
    registered. *)
Theorem call_registers_first_event (args : list AttrArgs)
    (kwargs : list (string * PyVal)) (first : option PyVal)
    (st : EventListener) :
  EventListener_call args kwargs first st
  = match EventListener_new_event args kwargs with
    | Ok evt =>
        (listening_to
           (_events_to_listen st ++
            [entry_for None (match first with
                             | Some v => truthy v
                             | None => true
                             end) evt]) st,
         Ok tt)
    | Raise e => (st, Raise e)
    end.
Proof.
  unfold EventListener_call. rewrite run_bind. cbn [lift].
  destruct (EventListener_new_event args kwargs) as [evt|e]; [|reflexivity].
  rewrite listen_to_run. now destruct first.
Qed.

(** ** EventListener.set_last_record *)

(** X11. [set_last_record(evt)] sets the watermark to the value of the
    event's [id] attribute, and raises KeyError when the event has none.
    [set_last_record()] asks for the latest event: with none it leaves the
    watermark as it was and raises nothing; else it sets the watermark to
    the id of the first record returned, and raises AttributeError when
    that record has no id. *)
Theorem set_last_record_cases (w : World) (st : EventListener) :
  (forall evt a, event_attrs evt !! "id" = Some a ->
     EventListener_set_last_record w (Some evt) st
     = ((assign_last_processed_id (value a) st).1, Ok tt))
  /\ (forall evt, event_attrs evt !! "id" = None ->
     EventListener_set_last_record w (Some evt) st = (st, Raise KeyError))
  /\ (event_streams_last w (length (trace st)) = [] ->
     EventListener_set_last_record w None st = (did EventStreamsLast st, Ok tt))
  /\ (forall e rest v,
        event_streams_last w (length (trace st)) = e :: rest ->
        e !! "id" = Some v ->
        EventListener_set_last_record w None st
        = ((assign_last_processed_id v (did EventStreamsLast st)).1, Ok tt))
  /\ (forall e rest,
        event_streams_last w (length (trace st)) = e :: rest ->
        e !! "id" = None ->
        EventListener_set_last_record w None st
        = (did EventStreamsLast st, Raise AttributeError)).
Proof.
  unfold EventListener_set_last_record. repeat split.
  - intros evt a Ha. rewrite run_bind. unfold lift, getitem. now rewrite Ha.
  - intros evt Ha. rewrite run_bind. unfold lift, getitem. now rewrite Ha.
  - intros Hl. unfold try_except. rewrite run_bind. cbn [ask]. now rewrite Hl.
  - intros e rest v Hl Hv. unfold try_except. rewrite run_bind. cbn [ask].
    rewrite Hl, run_bind. unfold lift, getattr. now rewrite Hv.
  - intros e rest Hl Hv. unfold try_except. rewrite run_bind. cbn [ask].
    rewrite Hl, run_bind. unfold lift, getattr. now rewrite Hv.
Qed.

(** X11, at the start of a new listener on an appliance that has no event
    yet: the watermark stays None. *)
Lemma set_last_record_cases_witness :
  EventListener_start vm1_appears EventListener_init
  = (did EventStreamsLast EventListener_init, Ok tt)
  /\ _last_processed_id (EventListener_start vm1_appears EventListener_init).1
     = VNone.
Proof.
  pose proof (proj1 (proj2 (proj2 (set_last_record_cases vm1_appears
                                     EventListener_init))) eq_refl) as H.
  split; [exact H|].
  unfold EventListener_start. now rewrite H.
Defined.

(** ** What add_target_id does not catch *)

(** X12. [add_target_id] swallows ValueError only. On an event with a
    [target_name] and no [target_id]: without a [target_type] it raises
    KeyError; with a name that is not a number and a type that is not in
    [TARGET_TYPES] it raises TypeError. In both cases nothing was asked,
    and the event is not changed. *)
Theorem add_target_id_raises (w : World) (self : Event) (st : EventListener) :
  has_attr self "target_name" = true ->
  has_attr self "target_id" = false ->
  (event_attrs self !! "target_type" = None ->
     Event_add_target_id w self st = (st, Raise KeyError))
  /\ (forall ty nm,
        event_attrs self !! "target_type" = Some ty ->
        event_attrs self !! "target_name" = Some nm ->
        is_Number (value nm) = false ->
        target_rest_of (value ty) = None ->
        Event_add_target_id w self st = (st, Raise TypeError)).
Proof.
  intros Hname Hid. unfold Event_add_target_id. rewrite Hname, Hid.
  cbn [andb negb]. split.
  - intros Hty. apply run_try_passed; [|discriminate].
    rewrite run_bind. unfold lift, getitem. now rewrite Hty.
  - intros ty nm Hty Hnm Hnum Hrest. apply run_try_passed; [|discriminate].
    rewrite run_bind. unfold lift at 1, getitem. rewrite Hty.
    rewrite run_bind. unfold lift at 1. rewrite Hnm.
    rewrite run_bind. unfold EventTool_process_id. now rewrite Hnum, Hrest.
Qed.

(** X12, at an expectation with a [target_name] and no [target_type], and
    at one whose type is [Vm]. *)
Lemma add_target_id_raises_witness :
  Event_add_target_id vm1_appears
    (Event_init [AnEventAttr (attr_of "target_name" (VStr "vm1"))])
    EventListener_init
  = (EventListener_init, Raise KeyError)
  /\ Event_add_target_id vm1_appears
       (Event_init [AnEventAttr (attr_of "target_type" (VStr "Vm"));
                    AnEventAttr (attr_of "target_name" (VStr "vm1"))])
       EventListener_init
     = (EventListener_init, Raise TypeError).
Proof.
  split.
  - refine (proj1 (add_target_id_raises vm1_appears
                     (Event_init [AnEventAttr (attr_of "target_name" (VStr "vm1"))])
                     EventListener_init _ _) _);
      vm_compute; reflexivity.
  - refine (proj2 (add_target_id_raises vm1_appears
                     (Event_init [AnEventAttr (attr_of "target_type" (VStr "Vm"));
                                  AnEventAttr (attr_of "target_name" (VStr "vm1"))])
                     EventListener_init _ _)
                  (attr_of "target_type" (VStr "Vm"))
                  (attr_of "target_name" (VStr "vm1")) _ _ _ _);
      vm_compute; reflexivity.
Defined.

(** ** An exception ends the loop *)

Lemma exp_event_at_run (i : nat) (exp : ExpEvent) (st : EventListener) :
  _events_to_listen st !! i = Some exp -> exp_event_at i st = (st, Ok exp).
Proof.
  intros Hi. unfold exp_event_at. rewrite run_bind. cbn [gets]. now rewrite Hi.
Qed.

Lemma process_exp_event_raise (w : World) (i : nat) (exp : ExpEvent)
    (st st' : EventListener) (e : Exn) :
  _events_to_listen st !! i = Some exp ->
  already_occurred exp = false ->
  Event_add_target_id w (event exp) st = (st', Raise e) ->
  process_exp_event w i st = (st', Raise e).
Proof.
  intros Hi Hocc Hraise. unfold process_exp_event.
  rewrite (run_bind_ok _ _ _ _ _ (exp_event_at_run i exp st Hi)).
  fold (already_occurred exp). rewrite Hocc.
  apply run_bind_raise. unfold EventListener_get_next_portion.
  now apply run_bind_raise.
Qed.

(** X13. Nothing in the loop catches an exception. When [add_target_id]
    raises on the expected event of an entry that the loop does not pass
    over, the body of the loop raises it; and when that entry is the first,
    an unstopped [process_events] ends with that exception after its first
    sleep: no entry is processed, in this pass or later. *)
Theorem exception_ends_the_loop (w : World) (st : EventListener) :
  (forall i exp st' e,
     _events_to_listen st !! i = Some exp ->
     already_occurred exp = false ->
     Event_add_target_id w (event exp) st = (st', Raise e) ->
     process_exp_event w i st = (st', Raise e))
  /\ (forall exp rest st' e fuel,
        _events_to_listen st = exp :: rest ->
        already_occurred exp = false ->
        stop_is_set w (length (trace st)) = false ->
        Event_add_target_id w (event exp) (did Sleep (did StopIsSet st))
        = (st', Raise e) ->
        EventListener_process_events w (S fuel) st = (st', Raise e)).
Proof.
  split; [intros i exp st' e; apply process_exp_event_raise|].
  intros exp rest st' e fuel Hl Hocc Hstop Hraise.
  cbn [EventListener_process_events]. rewrite run_bind. cbn [ask].
  rewrite Hstop. rewrite run_bind. cbn [emit modify].
  rewrite run_bind. cbn [gets]. cbn [did _events_to_listen]. rewrite Hl.
  cbn [length for_exp_events].
  apply run_bind_raise, run_bind_raise.
  apply (process_exp_event_raise w 0 exp); auto.
  cbn [did _events_to_listen]. now rewrite Hl.
Qed.

(** X13, at a listener whose one expectation has a [target_name] and no
    [target_type]: the first pass ends with KeyError. *)
Lemma exception_ends_the_loop_witness :
  let evt := Event_init [AnEventAttr (attr_of "target_name" (VStr "vm1"))] in
  let st := listening_for evt false in
  EventListener_process_events vm1_appears 5 st
  = (did Sleep (did StopIsSet st), Raise KeyError).
Proof.
  intros evt st.
  refine (proj2 (exception_ends_the_loop vm1_appears st)
                (entry_for None false evt) [] (did Sleep (did StopIsSet st))
                KeyError 4%nat eq_refl eq_refl eq_refl _).
  vm_compute. reflexivity.
Defined.

(** ** A rule for the loop *)

(** What holds of the listener before [process_events] holds after it when
    it returns, and something maybe weaker when it raises, provided the
    first is kept by the four things the loop does (a question to the
    world; an assignment to the watermark; the event of an entry replaced
    by what [add_target_id] made of it; a match recorded, for an entry
    whose event has a [target_id] and matches the observed event, after a
    callback that returned), and the second holds after a callback that
    raised. *)
Section LoopRule.

Variable w : World.
Variables I E : EventListener -> Prop.
Hypothesis I_E : forall st, I st -> E st.
Hypothesis I_question :
  forall a st, is_question a = true -> I st -> I (did a st).
Hypothesis I_assign :
  forall v st, I st -> I (assign_last_processed_id v st).1.
Hypothesis I_resolve :
  forall i exp evt' st,
    I st -> _events_to_listen st !! i = Some exp ->
    already_occurred exp = false -> event_grows (event exp) evt' ->
    I (update_exp_event i (with_event evt') st).1.
Hypothesis I_match :
  forall i exp ent st,
    I st -> _events_to_listen st !! i = Some exp ->
    has_attr (event exp) "target_id" = true ->
    Event_matches (event exp) (observed ent) = Ok true ->
    I (record_match i exp (observed ent) st).1.
Hypothesis I_callback_raised :
  forall i exp cb ent st,
    I st -> _events_to_listen st !! i = Some exp ->
    callback exp = Some cb ->
    E (did (Callback cb (event exp) (observed ent)) st).

(** A run that keeps [I] when it returns and ends in [E] when it raises. *)
Definition ruled {A : Type} (m : M A) : Prop :=
  forall st, I st -> wp m (fun _ => I) E st.

Lemma ruled_bind {A B : Type} (m : M A) (f : A -> M B) :
  ruled m -> (forall a, ruled (f a)) -> ruled (m ≫= f).
Proof.
  intros Hm Hf st HI. apply wp_bind.
  eapply wp_mono; [apply Hm, HI| |auto]. intros a st' HI'. now apply Hf.
Qed.

Lemma ruled_ret {A : Type} (a : A) : ruled (mret a).
Proof. intros st HI. exact HI. Qed.

Lemma ruled_ask {A : Type} (a : Action) (answer : nat -> A) :
  is_question a = true -> ruled (ask a answer).
Proof. intros Ha st HI. apply wp_ask. now apply I_question. Qed.

(** The invariant, with [_events_to_listen] known to be [l]. *)
Definition with_entries (l : list ExpEvent) (st : EventListener) : Prop :=
  I st /\ _events_to_listen st = l.

Lemma with_entries_question l a st :
  is_question a = true -> with_entries l st -> with_entries l (did a st).
Proof. intros Ha [HI Hl]. split; auto. Qed.

Lemma with_entries_E l st : with_entries l st -> E st.
Proof. intros [HI _]. now apply I_E. Qed.

Lemma rule_process_id l ty nm :
  keeps (with_entries l) (EventTool_process_id w ty nm).
Proof.
  unfold EventTool_process_id. destruct (is_Number nm); [apply keeps_ret|].
  destruct (target_rest_of ty); [|apply keeps_raise].
  apply keeps_bind;
    [apply keeps_ask; intros st; now apply with_entries_question|].
  intros [|o0 ?]; [apply keeps_raise | apply keeps_lift].
Qed.

Lemma rule_add_target_id l evt st :
  with_entries l st ->
  wp (Event_add_target_id w evt)
     (fun evt' st' => with_entries l st' /\ event_grows evt evt')
     (with_entries l) st.
Proof.
  intros HJ. unfold Event_add_target_id.
  destruct (has_attr evt "target_name" && negb (has_attr evt "target_id"))
    eqn:Hc; [|apply wp_ret; split; [exact HJ|now left]].
  apply andb_true_iff in Hc as [Hname Hid]. apply negb_true_iff in Hid.
  assert (forall st', with_entries l st' ->
            with_entries l st' /\
            wp (mret evt : M Event)
               (fun evt' st'' => with_entries l st'' /\ event_grows evt evt')
               (with_entries l) st') as Hcaught.
  { intros st' HJ'. split; [exact HJ'|]. apply wp_ret. split; [exact HJ'|now left]. }
  apply wp_try, wp_bind, wp_lift.
  destruct (getitem _ "target_type") as [ty|]; [|now apply Hcaught].
  apply wp_bind, wp_lift.
  destruct (getitem _ "target_name") as [nm|]; [|now apply Hcaught].
  apply wp_bind.
  eapply wp_mono; [apply rule_process_id, HJ| |exact Hcaught].
  intros id st' HJ'. apply wp_bind, wp_lift.
  cbn [EventAttr_init length Nat.ltb Nat.leb]. apply wp_ret.
  split; [exact HJ'|]. right. repeat split; auto. now exists id.
Qed.

Lemma rule_get_next_portion l evt st :
  with_entries l st ->
  wp (EventListener_get_next_portion w evt)
     (fun r st' =>
        with_entries l st' /\ event_grows evt r.1 /\
        (forall p, r.2 = Some p -> has_attr r.1 "target_id" = true))
     (with_entries l) st.
Proof.
  intros HJ. unfold EventListener_get_next_portion. apply wp_bind.
  eapply wp_mono; [apply rule_add_target_id, HJ| |auto].
  clear st HJ. intros evt' st [HJ Hgrow]. cbn beta.
  destruct (has_attr evt' "target_id") eqn:Hid; cbn [negb].
  - apply wp_bind, wp_gets, wp_bind, wp_ask, wp_ret.
    split; [now apply with_entries_question|]. now split.
  - apply wp_ret. split; [exact HJ|]. split; [exact Hgrow|]. discriminate.
Qed.

Lemma rule_set_last_record l evt :
  keeps (with_entries l) (EventListener_set_last_record w (Some evt)).
Proof.
  unfold EventListener_set_last_record.
  apply keeps_bind; [apply keeps_lift|]. intros a.
  apply keeps_modify. intros st [HI Hl]. split; [|exact Hl].
  exact (I_assign (value a) st HI).
Qed.

Lemma record_match_entry i exp got st exp' :
  _events_to_listen st !! i = Some exp ->
  _events_to_listen (record_match i exp got st).1 !! i = Some exp' ->
  event exp' = event exp.
Proof.
  intros Hi. unfold record_match.
  destruct (callback exp); simpl; rewrite list_lookup_alter_eq, Hi;
    now intros [= <-].
Qed.

Lemma rule_match_events i portion : forall st,
  I st ->
  (forall exp, _events_to_listen st !! i = Some exp ->
               has_attr (event exp) "target_id" = true) ->
  wp (match_events w i portion) (fun _ => I) E st.
Proof.
  induction portion as [|ent portion IH]; intros st HI Htarget;
    [now apply wp_ret|].
  cbn [match_events]. fold (observed ent).
  apply wp_bind. unfold exp_event_at. apply wp_bind, wp_gets.
  destruct (_events_to_listen st !! i) as [exp|] eqn:Hi; [|now apply I_E].
  apply wp_ret, wp_bind, wp_lift.
  destruct (Event_matches (event exp) (observed ent)) as [r|] eqn:Hm;
    [|now apply I_E].
  assert (forall st1,
            I st1 ->
            (forall exp1, _events_to_listen st1 !! i = Some exp1 ->
                          has_attr (event exp1) "target_id" = true) ->
            wp (EventListener_set_last_record w (Some (observed ent)) ≫=
                fun _ => match_events w i portion)
               (fun _ => I) E st1) as Hcont.
  { intros st1 HI1 Htarget1. apply wp_bind.
    eapply wp_mono;
      [apply (rule_set_last_record (_events_to_listen st1) (observed ent) st1);
       now split| |apply with_entries_E].
    intros [] st2 [HI2 Hl2]. apply IH; [exact HI2|]. now rewrite Hl2. }
  assert (has_attr (event exp) "target_id" = true) as Hexp
    by (now apply Htarget).
  apply wp_bind. destruct r.
  - pose proof (I_match i exp ent st HI Hi Hexp Hm) as HI1.
    pose proof (record_match_entry i exp (observed ent) st) as Hentry.
    pose proof (I_callback_raised i exp) as Hraised.
    unfold record_match in HI1, Hentry. apply wp_bind.
    destruct (callback exp) as [cb|].
    + unfold call_callback. apply wp_bind, wp_ask.
      destruct (callback_raises w _ cb (event exp) (observed ent)) as [e|].
      * apply wp_raise. now apply (Hraised cb).
      * apply wp_ret. unfold update_exp_event at 1.
        apply wp_bind, wp_gets, wp_modify. apply Hcont; [exact HI1|].
        intros exp1 H1. now rewrite (Hentry exp1 Hi H1).
    + apply wp_ret. unfold update_exp_event at 1.
      apply wp_bind, wp_gets, wp_modify. apply Hcont; [exact HI1|].
      intros exp1 H1. now rewrite (Hentry exp1 Hi H1).
  - apply wp_ret. apply Hcont; [exact HI|].
    intros exp1 H1. apply Htarget. now rewrite <- Hi.
Qed.

Lemma rule_process_exp_event i : ruled (process_exp_event w i).
Proof.
  intros st HI. unfold process_exp_event.
  apply wp_bind. unfold exp_event_at. apply wp_bind, wp_gets.
  destruct (_events_to_listen st !! i) as [exp|] eqn:Hi; [|now apply I_E].
  apply wp_ret. fold (already_occurred exp).
  destruct (already_occurred exp) eqn:Hocc; [exact HI|].
  apply wp_bind.
  eapply wp_mono;
    [apply (rule_get_next_portion (_events_to_listen st) (event exp) st);
     now split| |apply with_entries_E].
  intros r st1 ([HI1 Hl1] & Hgrow & Htarget). rewrite <- Hl1 in Hi.
  apply wp_bind. unfold update_exp_event at 1. apply wp_bind, wp_gets, wp_modify.
  pose proof (I_resolve i exp r.1 st1 HI1 Hi Hocc Hgrow) as HI2.
  change (update_exp_event i (with_event r.1) st1).1
    with (set_events_to_listen
            (alter (with_event r.1) i (_events_to_listen st1)) st1).1 in HI2.
  destruct (r.2) as [[|ent portion]|] eqn:Hr; try exact HI2.
  apply wp_bind.
  eapply wp_mono; [apply rule_match_events; [exact HI2|]| |auto].
  - intros exp1. simpl. rewrite list_lookup_alter_eq, Hi.
    intros [= <-]. simpl. now apply (Htarget (ent :: portion)).
  - intros [] st3 HI3. apply wp_bind, wp_ask, wp_ret. now apply I_question.
Qed.

Lemma rule_for_exp_events i todo : ruled (for_exp_events w i todo).
Proof.
  revert i. induction todo as [|todo IH]; intros i; [apply ruled_ret|].
  cbn [for_exp_events].
  apply ruled_bind; [apply rule_process_exp_event|].
  intros [|]; [apply IH | apply ruled_ret].
Qed.

Lemma rule_process_events fuel :
  ruled (EventListener_process_events w fuel).
Proof.
  induction fuel as [|fuel IH]; [apply ruled_ret|].
  cbn [EventListener_process_events].
  apply ruled_bind; [now apply ruled_ask|].
  intros [|]; [apply ruled_ret|].
  apply ruled_bind; [intros st HI; apply wp_modify; now apply I_question|].
  intros _. apply ruled_bind; [intros st HI; exact HI|]. intros n.
  apply ruled_bind; [apply rule_for_exp_events|]. intros _. exact IH.
Qed.

End LoopRule.

(** The rule for what is kept whatever the outcome. *)
Section KeptWhatever.

Variable w : World.
Variable I : EventListener -> Prop.
Hypothesis I_question :
  forall a st, is_question a = true -> I st -> I (did a st).
Hypothesis I_assign :
  forall v st, I st -> I (assign_last_processed_id v st).1.
Hypothesis I_resolve :
  forall i exp evt' st,
    I st -> _events_to_listen st !! i = Some exp ->
    already_occurred exp = false -> event_grows (event exp) evt' ->
    I (update_exp_event i (with_event evt') st).1.
Hypothesis I_match :
  forall i exp ent st,
    I st -> _events_to_listen st !! i = Some exp ->
    has_attr (event exp) "target_id" = true ->
    Event_matches (event exp) (observed ent) = Ok true ->
    I (record_match i exp (observed ent) st).1.
Hypothesis I_callback :
  forall cb exp_event got st, I st -> I (did (Callback cb exp_event got) st).

Lemma kept_in_pass i todo : keeps I (for_exp_events w i todo).
Proof. apply (rule_for_exp_events w I I); auto. Qed.

Lemma kept_in_loop fuel : keeps I (EventListener_process_events w fuel).
Proof. apply (rule_process_events w I I); auto. Qed.

End KeptWhatever.

(** ** What the loop does to the entries *)

Lemma record_match_entries (i : nat) (exp : ExpEvent) (got : Event)
    (st : EventListener) :
  _events_to_listen (record_match i exp got st).1
  = alter (append_matched got) i (_events_to_listen st).
Proof. unfold record_match. now destruct (callback exp). Qed.

Lemma record_match_trace (i : nat) (exp : ExpEvent) (got : Event)
    (st : EventListener) :
  trace (record_match i exp got st).1
  = trace st ++ match callback exp with
                | Some cb => [Callback cb (event exp) got]
                | None => []
                end.
Proof.
  unfold record_match. destruct (callback exp); simpl; [reflexivity|].
  now rewrite app_nil_r.
Qed.

Lemma has_attr_insert (evt : Event) (k : string) (a : EventAttr) :
  has_attr {| event_attrs := <[k := a]> (event_attrs evt) |} k = true.
Proof.
  unfold has_attr. apply bool_decide_eq_true_2. simpl.
  apply elem_of_dom. rewrite lookup_insert_eq. eauto.
Qed.

Lemma event_grows_trans (a b c : Event) :
  event_grows a b -> event_grows b c -> event_grows a c.
Proof.
  intros [->|(Hn & Hi & id & ->)] Hbc; [exact Hbc|].
  destruct Hbc as [->|(_ & Hi' & _)].
  - right. repeat split; auto. now exists id.
  - now rewrite has_attr_insert in Hi'.
Qed.

Lemma entry_extends_refl (e : ExpEvent) : entry_extends e e.
Proof. repeat split; auto. now left. Qed.

(** X14. The loop only adds to the entries. Whatever the appliance answers
    and however long [process_events] runs, with whatever outcome, there
    are as many entries after as before, and each has the callback and the
    [first_event] flag it had, the matched events it had, in their order,
    with any new ones after them, and its expected event either unchanged
    or, when that had a [target_name] and no [target_id], with a
    [target_id] added. *)
Theorem entries_only_grow (w : World) (fuel : nat) (st : EventListener) :
  Forall2 entry_extends
    (_events_to_listen st)
    (_events_to_listen (EventListener_process_events w fuel st).1).
Proof.
  apply (keeps_run
           (fun st' => Forall2 entry_extends (_events_to_listen st)
                         (_events_to_listen st'))).
  - apply kept_in_loop.
    + intros a st' _ H. exact H.
    + intros v st' H. exact H.
    + intros i exp evt' st' H Hi _ Hgrow. simpl.
      apply Forall2_alter_r; [exact H|].
      intros e0 y _ Hy (Hcb & Hfirst & Hpre & Hev).
      assert (y = exp) as -> by congruence.
      repeat split; auto. simpl. now apply (event_grows_trans _ (event exp)).
    + intros i exp ent st' H Hi _ _. rewrite record_match_entries.
      apply Forall2_alter_r; [exact H|].
      intros e0 y _ Hy (Hcb & Hfirst & Hpre & Hev).
      repeat split; auto. simpl. now apply prefix_app_r.
    + intros cb exp_event got st' H. exact H.
  - apply Forall_Forall2_diag, Forall_forall. intros e _.
    apply entry_extends_refl.
Qed.

(** X15. Every matched event is a real match. If it is so before, then
    after [process_events], however long it runs and with whatever
    outcome, every matched event of every entry was built from a record of
    the source and matches the entry's expected event as that now is; and
    an entry that has a matched event has its [target_id]. *)
Theorem matched_events_match (w : World) (fuel : nat) (st : EventListener) :
  Forall sound_entry (_events_to_listen st) ->
  Forall sound_entry
    (_events_to_listen (EventListener_process_events w fuel st).1).
Proof.
  apply (keeps_run (fun st' => Forall sound_entry (_events_to_listen st'))).
  apply kept_in_loop.
  - intros a st' _ H. exact H.
  - intros v st' H. exact H.
  - intros i exp evt' st' H Hi _ Hgrow. simpl.
    apply Forall_alter; [exact H|].
    intros y Hy [Htarget Hall]. assert (y = exp) as -> by congruence.
    destruct Hgrow as [->|(_ & Hid & _)]; [now destruct exp|].
    unfold sound_entry. simpl.
    destruct (matched_events exp) as [|got l].
    + split; [congruence|constructor].
    + rewrite Htarget in Hid; [discriminate|congruence].
  - intros i exp ent st' H Hi Htarget Hm. rewrite record_match_entries.
    apply Forall_alter; [exact H|].
    intros y Hy [_ Hall]. assert (y = exp) as -> by congruence.
    split; simpl; [auto|].
    apply Forall_app. split; [exact Hall|].
    constructor; [|constructor]. split; [now exists ent|exact Hm].
  - intros cb exp_event got st' H. exact H.
Qed.

(** X15, at the expectation of a [vm_create] on the target 7, newly
    registered, on a source that holds the events 3 and 5 on that target:
    two passes. *)
Lemma matched_events_match_witness :
  Forall sound_entry
    (_events_to_listen
       (EventListener_process_events
          (source_of [vm_create_record 3 7; vm_create_record 5 7]) 2
          (listening_for vm_create_on_7 false)).1).
Proof.
  apply (matched_events_match
           (source_of [vm_create_record 3 7; vm_create_record 5 7]) 2
           (listening_for vm_create_on_7 false)).
  constructor; [|constructor]. split; [now intros H|constructor].
Defined.

(** ** Callbacks *)






(** ** The watermark after a portion *)

Lemma set_last_record_observed (w : World) (ent : Entity) (st : EventListener) :
  EventListener_set_last_record w (Some (observed ent)) st
  = ((assign_last_processed_id (record_id ent) st).1, Ok tt).
Proof.
  unfold EventListener_set_last_record, observed. rewrite run_bind.
  rewrite build_from_entity_id. reflexivity.
Qed.

Lemma match_events_watermark (w : World) (i : nat) (portion : list Entity) :
  forall st,
  wp (match_events w i portion)
     (fun _ st' =>
        _last_processed_id st'
        = match last portion with
          | Some ent => record_id ent
          | None => _last_processed_id st
          end)
     (fun _ => True) st.
Proof.
  induction portion as [|ent portion IH]; intros st; [now apply wp_ret|].
  cbn [match_events]. fold (observed ent).
  apply wp_bind. unfold exp_event_at. apply wp_bind, wp_gets.
  destruct (_events_to_listen st !! i) as [exp|]; [|exact I].
  apply wp_ret, wp_bind, wp_lift.
  destruct (Event_matches (event exp) (observed ent)) as [r|]; [|exact I].
  apply wp_bind.
  eapply wp_mono; [apply wp_trivial| |auto].
  intros [] st1 _. cbn beta.
  apply wp_bind. unfold wp at 1. rewrite set_last_record_observed.
  eapply wp_mono; [apply IH| |auto].
  intros [] st'. cbn beta. intros ->.
  destruct portion as [|ent' portion]; [reflexivity|].
  rewrite last_cons_cons.
  destruct (proj2 (last_is_Some (ent' :: portion))) as [x ->]; [discriminate|].
  reflexivity.
Qed.

(** X17. When the loop over a portion ends without an exception, the
    watermark is the id of the last record of the portion, whether that
    record, or any record, matched the expected event; a record without an
    id sets it to None. An empty portion leaves it as it was. *)
Theorem portion_sets_watermark (w : World) (i : nat) (portion : list Entity)
    (st st' : EventListener) :
  match_events w i portion st = (st', Ok tt) ->
  _last_processed_id st'
  = match last portion with
    | Some ent => default VNone (ent !! "id")
    | None => _last_processed_id st
    end.
Proof.
  intros Hrun. pose proof (match_events_watermark w i portion st) as H.
  unfold wp in H. now rewrite Hrun in H.
Qed.

(** X17, at the portion of the events 5 then 3, of which the second is on
    another target than the expected one: the watermark ends at 3. *)
Lemma portion_sets_watermark_witness :
  _last_processed_id
    (match_events (source_of []) 0
       [vm_create_record 5 7; vm_create_record 3 8]
       (listening_for vm_create_on_7 false)).1
  = VInt 3.
Proof.
  refine (portion_sets_watermark (source_of []) 0
            [vm_create_record 5 7; vm_create_record 3 8]
            (listening_for vm_create_on_7 false) _ _).
  vm_compute. reflexivity.
Defined.

(** ** The query of get_next_portion *)

Lemma conjuncts_add_filters (evt : Event) (keys : list string) (q : Q) :
  conjuncts
    (foldl (fun q filter_attr =>
              match event_attrs evt !! filter_attr with
              | Some evt_attr =>
                  if truthy (value evt_attr)
                  then Q_and q (Q_ filter_attr "=" (value evt_attr))
                  else q
              | None => q
              end) q keys)
  = conjuncts q ++ omap (equality_for evt) keys.
Proof.
  revert q. induction keys as [|k keys IH]; intros q.
  { simpl. now rewrite app_nil_r. }
  cbn [foldl omap list_omap]. rewrite IH. unfold equality_for at 2.
  destruct (event_attrs evt !! k) as [a|]; [|reflexivity].
  destruct (truthy (value a)); [|reflexivity].
  simpl. now rewrite <- app_assoc.
Qed.

Lemma omap_equality_for_present (evt : Event) (keys : list string) :
  omap (equality_for evt) (List.filter (has_attr evt) keys)
  = omap (equality_for evt) keys.
Proof.
  induction keys as [|k keys IH]; [reflexivity|]. cbn [List.filter].
  destruct (has_attr evt k) eqn:Hk; cbn [omap list_omap]; rewrite IH;
    [reflexivity|].
  unfold has_attr in Hk. apply bool_decide_eq_false_1 in Hk.
  apply not_elem_of_dom in Hk. unfold equality_for at 2. now rewrite Hk.
Qed.

(** X18. On an event that has a [target_id], [get_next_portion] resolves
    nothing and leaves the event as it is, asks the event source once, and
    returns its answer. The filter it asks with is [id > watermark]
    followed, in the order in which the interpreter walks the set of used
    filters, by an equality for each of [event_type], [target_type],
    [target_id] and [source] that the event has with a true value; no
    other attribute is filtered on, and one with a false value (a
    [target_id] of 0) is left out. *)
Theorem get_next_portion_query (w : World) (evt : Event) (st : EventListener) :
  has_attr evt "target_id" = true ->
  (forall names, set_order w names ≡ₚ names) ->
  let q := add_filters w evt (Q_ "id" ">" (_last_processed_id st)) in
  EventListener_get_next_portion w evt st
  = (did (EventStreamsFilter q) st,
     Ok (evt, Some (event_streams_filter w (length (trace st)) q)))
  /\ exists equalities,
       conjuncts q = Q_ "id" ">" (_last_processed_id st) :: equalities /\
       equalities ≡ₚ omap (equality_for evt) FILTER_ATTRS.
Proof.
  intros Hid Horder q. split.
  - unfold EventListener_get_next_portion.
    rewrite (run_bind_ok _ _ st st evt) by (apply add_target_id_skip; auto).
    now rewrite Hid.
  - exists (omap (equality_for evt) (used_filters w evt)). split.
    + subst q. unfold add_filters. now rewrite conjuncts_add_filters.
    + unfold used_filters. rewrite Horder.
      now rewrite omap_equality_for_present.
Qed.

(** X18, at the expectation of a [vm_create] on the target 7 with the
    watermark 2, in a world that walks the set from [target_id] to
    [event_type]. *)
Lemma get_next_portion_query_witness :
  conjuncts (add_filters (walking_backwards (source_of [])) vm_create_on_7
               (Q_ "id" ">" (VInt 2)))
  = [ Q_ "id" ">" (VInt 2); Q_ "target_id" "=" (VInt 7);
      Q_ "event_type" "=" (VStr "vm_create") ]
  /\ exists equalities,
       conjuncts (add_filters (walking_backwards (source_of [])) vm_create_on_7
                    (Q_ "id" ">" (VInt 2)))
       = Q_ "id" ">" (VInt 2) :: equalities /\
       equalities ≡ₚ omap (equality_for vm_create_on_7) FILTER_ATTRS.
Proof.
  split; [reflexivity|].
  refine (proj2 (get_next_portion_query (walking_backwards (source_of []))
                   vm_create_on_7 (listening_for vm_create_on_7 false)
                   eq_refl _)).
  intros names. simpl. symmetry. apply Permutation_rev.
Defined.

(** ** The stop signal *)

Lemma trace_grows_in_pass (w : World) (i todo : nat) (st : EventListener) :
  (length (trace st) <= length (trace (for_exp_events w i todo st).1))%nat.
Proof.
  apply (keeps_run
           (fun st' => (length (trace st) <= length (trace st'))%nat));
    [|reflexivity].
  apply kept_in_pass.
  - intros a st' _ H. simpl. rewrite length_app. simpl.
    clear -H. lia.
  - intros v st' H. simpl. rewrite length_app. simpl. clear -H. lia.
  - intros j exp evt' st' H _ _ _. exact H.
  - intros j exp ent st' H _ _ _. rewrite record_match_trace, length_app.
    clear -H. lia.
  - intros cb exp_event got st' H. simpl. rewrite length_app. simpl.
    clear -H. lia.
Qed.

Lemma stop_within (w : World) (T : nat) :
  (forall t, (T <= t)%nat -> stop_is_set w t = true) ->
  forall n st,
  (T <= length (trace st) + n)%nat ->
  (EventListener_process_events w (S n) st).2 <> Ok false.
Proof.
  intros Hstop. induction n as [|n IH]; intros st HT.
  - cbn [EventListener_process_events]. rewrite run_bind. cbn [ask].
    rewrite Hstop by (clear -HT; lia). discriminate.
  - change (EventListener_process_events w (S (S n)))
      with (stop ← ask StopIsSet (stop_is_set w);
            if stop : bool then mret true
            else
              emit Sleep;;
              n0 ← gets (fun st => length (_events_to_listen st));
              for_exp_events w 0 n0;;
              EventListener_process_events w (S n)).
    rewrite run_bind. cbn [ask].
    destruct (stop_is_set w (length (trace st))); [discriminate|].
    rewrite run_bind. cbn [emit modify]. rewrite run_bind. cbn [gets].
    rewrite run_bind.
    pose proof (trace_grows_in_pass w 0
                  (length (_events_to_listen (did Sleep (did StopIsSet st))))
                  (did Sleep (did StopIsSet st))) as Hgrow.
    destruct (for_exp_events w 0 _ (did Sleep (did StopIsSet st)))
      as [st2 [[]|e]]; [|discriminate].
    apply IH. cbn [fst] in Hgrow. simpl in Hgrow.
    rewrite !length_app in Hgrow. simpl in Hgrow. clear -HT Hgrow. lia.
Qed.

(** X19. The stop signal ends the loop. If it stays raised from some
    moment on, then [process_events] given passes enough does not run out
    of them: it returns on the stop signal, or it ended before with an
    exception. If the signal is raised when the loop starts, it returns at
    once: no query is made and neither the entries nor the watermark
    change. *)
Theorem stop_ends_the_loop (w : World) (T : nat) (st : EventListener) :
  (forall t, (T <= t)%nat -> stop_is_set w t = true) ->
  (EventListener_process_events w (S (T - length (trace st))) st).2 <> Ok false
  /\ (stop_is_set w (length (trace st)) = true ->
      forall fuel,
      EventListener_process_events w (S fuel) st = (did StopIsSet st, Ok true)).
Proof.
  intros Hstop. split.
  - apply (stop_within w T Hstop). lia.
  - intros Hnow fuel. cbn [EventListener_process_events].
    rewrite run_bind. cbn [ask]. now rewrite Hnow.
Qed.

(** X19, at a source that holds two matching events, with the stop signal
    raised from the third moment on. *)
Lemma stop_ends_the_loop_witness :
  let w := stopped_from 3
             (source_of [vm_create_record 3 7; vm_create_record 5 7]) in
  (EventListener_process_events w 4 (listening_for vm_create_on_7 false)).2
  <> Ok false.
Proof.
  intros w.
  refine (proj1 (stop_ends_the_loop w 3 (listening_for vm_create_on_7 false) _)).
  intros t Ht. now apply Nat.leb_le.
Defined.

(** ** select_two_quads *)

Lemma select_two_quads_loop_take {A : Type} (quads : list A) :
  forall count, select_two_quads_loop count quads = take (2 - count) quads.
Proof.
  induction quads as [|quad quads IH]; intros count.
  { now rewrite take_nil. }
  cbn [select_two_quads_loop].
  destruct (2 <? S count)%nat eqn:Hc.
  - apply Nat.ltb_lt in Hc. now replace (2 - count)%nat with 0%nat by lia.
  - apply Nat.ltb_ge in Hc. rewrite IH.
    now replace (2 - count)%nat with (S (2 - S count)) by lia.
Qed.

(** X20. [select_two_quads] fills the checkboxes of the first two
    quadicons of the page, in order; of one when there is only one, and of
    none on an empty page. *)
Theorem select_two_quads_first_two {A : Type} (quads : list A) :
  select_two_quads quads = take 2 quads.
Proof. unfold select_two_quads. now rewrite select_two_quads_loop_take. Qed.

(** ** check_expected_events over the run *)

(** X21. Once every expectation is met it stays met: if
    [check_expected_events] is true before [process_events], it is true
    after it, however long it runs and with whatever outcome. *)
Theorem check_stays_true (w : World) (fuel : nat) (st : EventListener) :
  EventListener_check_expected_events st = true ->
  EventListener_check_expected_events
    (EventListener_process_events w fuel st).1 = true.
Proof.
  apply (keeps_run
           (fun st' => EventListener_check_expected_events st' = true)).
  apply kept_in_loop.
  - intros a st' _ H. exact H.
  - intros v st' H. exact H.
  - intros i exp evt' st' H _ _ _. revert H.
    unfold EventListener_check_expected_events, EventListener_got_events.
    rewrite !py_all_lengths. simpl. intros H.
    apply Forall_alter; [exact H|]. now intros [].
  - intros i exp ent st' H _ _ _. revert H.
    unfold EventListener_check_expected_events, EventListener_got_events.
    rewrite !py_all_lengths, record_match_entries. intros H.
    apply Forall_alter; [exact H|]. intros y _ _. simpl.
    rewrite length_app. simpl. lia.
  - intros cb exp_event got st' H. exact H.
Qed.

(** X21, at a listener whose one entry, not [first_event], has a matched
    event, on a source that holds two more matching events. *)
Lemma check_stays_true_witness :
  let st := {| _events_to_listen :=
                 [ {| event := vm_create_on_7; callback := None;
                      matched_events := [observed (vm_create_record 1 7)];
                      first_event := false |} ];
               _last_processed_id := VInt 2;
               trace := [] |} in
  EventListener_check_expected_events
    (EventListener_process_events
       (source_of [vm_create_record 3 7; vm_create_record 5 7]) 2 st).1
  = true.
Proof.
  intros st.
  apply (check_stays_true
           (source_of [vm_create_record 3 7; vm_create_record 5 7]) 2 st).
  reflexivity.
Defined.
